(** * Contour tracing of [bin/others/extract_contours.py]

    A shallow embedding of the path-ordering core of the script: the
    helpers [__dist], [__find_nearest] and [__draw_line] and the part of
    [main] that runs once the contour positions of a slice have been
    collected (the emptiness test, the greedy tour, the closing segment
    and the file sink).

    Numbers.  Contour positions come out of [nonzero()] and are integers
    ([Z]).  The interpolated coordinates are halves of integers; they are
    kept as rationals in lowest terms ([Q] under [Qred]), on which the
    float operations of the script (one division by [float(divider)], one
    product and one sum) are exact for its divider, 2.  A distance is the square root of an
    integer: it is kept as that integer under the constructor [Sqrt], and
    compared through the radicands, which is the order of the real
    numbers (lemma [surd_ltb_real]). *)

From Stdlib Require Import String ZArith QArith List Bool Arith Lia.
From Stdlib Require Import Ascii DecimalString DecimalN.
From Stdlib Require Import Reals.
Import ListNotations.

Local Open Scope list_scope.
Local Open Scope nat_scope.

(** ** Python values the script relies on *)

(** Exceptions the modelled code can raise. *)
Inductive exc : Type :=
| IndexError.

(** Outcome of a computation that may raise. *)
Inductive result (A : Type) : Type :=
| Ok (a : A)
| Raise (e : exc).
Arguments Ok {A} a.
Arguments Raise {A} e.

Definition bind {A B : Type} (m : result A) (k : A -> result B) : result B :=
  match m with
  | Ok a => k a
  | Raise e => Raise e
  end.

Notation "x <- m ;; k" := (bind m (fun x => k))
  (at level 61, m at next level, right associativity).

(** [seq[i]] for a non-negative constant index. *)
Definition getitem {A : Type} (l : list A) (i : nat) : result A :=
  match nth_error l i with
  | Some a => Ok a
  | None => Raise IndexError
  end.

(** What [__find_nearest] hands back: the boolean [False] or a position. *)
Inductive pyval : Type :=
| PyFalse
| PyInt (n : nat).

(** Python's [==] between [False] and such a value: [False == 0] holds. *)
Definition eq_False (v : pyval) : bool :=
  match v with
  | PyFalse => true
  | PyInt 0 => true
  | PyInt (S _) => false
  end.

(** The value used as a list index or stored in a list of positions:
    [False] indexes, and compares, as [0]. *)
Definition as_index (v : pyval) : nat :=
  match v with
  | PyFalse => 0
  | PyInt n => n
  end.

(** Truth value of a list in a condition: non-empty. *)
Definition truthy {A : Type} (l : list A) : bool :=
  match l with
  | [] => false
  | _ :: _ => true
  end.

(** [pos in processed] on a list of positions. *)
Definition py_in (pos : nat) (processed : list nat) : bool :=
  existsb (Nat.eqb pos) processed.

(** ** Distances *)

(** [Sqrt n] stands for the real number √n. *)
Inductive surd : Type :=
| Sqrt (radicand : Z).

Definition radicand (d : surd) : Z :=
  match d with Sqrt n => n end.

Definition math_sqrt (n : Z) : surd := Sqrt n.

Definition math_pow (x : Z) (n : Z) : Z := (x ^ n)%Z.

(** A non-negative integer literal seen as a distance. *)
Definition of_int (n : Z) : surd := Sqrt (n * n)%Z.

(** [a < b] and [a > b] on distances. *)
Definition surd_ltb (a b : surd) : bool := (radicand a <? radicand b)%Z.
Definition surd_gtb (a b : surd) : bool := surd_ltb b a.
Definition surd_leb (a b : surd) : bool := (radicand a <=? radicand b)%Z.

(** The real number a distance denotes. *)
Definition surd_real (d : surd) : R := sqrt (IZR (radicand d)).

(** ** Data of the script *)

(** A contour position: one integer per image axis. *)
Definition Point : Type := list Z.

(** A point of the output: a tuple of floats. *)
Definition vertex : Type := list Q.

(** ** The helpers *)

(** [__dist]: the euclidean distance between two points. *)
Definition __dist (p1 p2 : Point) : result surd :=
  x1 <- getitem p1 0 ;;
  x2 <- getitem p2 0 ;;
  y1 <- getitem p1 1 ;;
  y2 <- getitem p2 1 ;;
  Ok (math_sqrt (math_pow (x1 - x2) 2 + math_pow (y1 - y2) 2)%Z).

(** One coordinate [a + delta * i] of an interpolated point, where
    [delta] is [num / float(divider)]. *)
Definition coord (a num : Z) (divider : positive) (i : nat) : Q :=
  Qred (inject_Z a + (num # divider) * inject_Z (Z.of_nat i))%Q.

(** [__draw_line]: the points appended for the segment from [p1] to [p2]. *)
Definition __draw_line (p1 p2 : Point) (divider : positive) : result (list vertex) :=
  a0 <- getitem p1 0 ;;
  b0 <- getitem p2 0 ;;
  a1 <- getitem p1 1 ;;
  b1 <- getitem p2 1 ;;
  Ok (map (fun i => [coord a0 (a0 - b0)%Z divider i; coord a1 (a1 - b1)%Z divider i])
          (seq 1 (Pos.to_nat divider))).

(** The [for pos, p in enumerate(contour)] loop of [__find_nearest],
    started at position [pos] with the remaining points [rest]. *)
Fixpoint find_nearest_scan (pt : Point) (processed : list nat)
    (pos : nat) (rest : list Point) (nearest : pyval) (distance : surd)
    : result (pyval * surd) :=
  match rest with
  | [] => Ok (nearest, distance)
  | p :: rest' =>
      if py_in pos processed
      then find_nearest_scan pt processed (S pos) rest' nearest distance
      else
        dist <- __dist pt p ;;
        if surd_ltb dist distance
        then find_nearest_scan pt processed (S pos) rest' (PyInt pos) dist
        else find_nearest_scan pt processed (S pos) rest' nearest distance
  end.

(** [__find_nearest]: position of the nearest point not in [processed],
    or [False]. *)
Definition __find_nearest (pt : Point) (contour : list Point)
    (processed : list nat) : result pyval :=
  r <- find_nearest_scan pt processed 0 contour PyFalse (of_int 10000000%Z) ;;
  if surd_gtb (snd r) (math_sqrt 8%Z) then Ok PyFalse else Ok (fst r).


(** ** The tour of [main] *)

Definition divider : positive := 2%positive.

(** The variables the [while] loop of [main] updates. *)
Record state : Type := {
  point : Point;
  processed : list nat;
  contour_final : list vertex
}.

(** How one pass through the loop ends. *)
Inductive flow : Type :=
| Break (s : state)
| Continue (s : state).

(** The test [while point:] followed by one execution of the loop body. *)
Definition loop_body (contour : list Point) (s : state) : result flow :=
  if truthy (point s) then
    nearest_pos <- __find_nearest (point s) contour (processed s) ;;
    if eq_False nearest_pos then Ok (Break s)
    else
      p <- getitem contour (as_index nearest_pos) ;;
      line <- __draw_line (point s) p divider ;;
      Ok (Continue {| point := p;
                      processed := processed s ++ [as_index nearest_pos];
                      contour_final := contour_final s ++ line |})
  else Ok (Break s).

(** The [while] loop, run for at most [fuel] passes; [None] when the
    passes are used up before the loop ends. *)
Fixpoint while_loop (fuel : nat) (contour : list Point) (s : state)
    : option (result state) :=
  match fuel with
  | 0 => None
  | S fuel' =>
      match loop_body contour s with
      | Raise e => Some (Raise e)
      | Ok (Break s') => Some (Ok s')
      | Ok (Continue s') => while_loop fuel' contour s'
      end
  end.

(** The state the loop starts from: [point = contour[0]],
    [processed = [0]], [contour_final = []]. *)
Definition initial (p0 : Point) : state :=
  {| point := p0; processed := [0]; contour_final := [] |}.

(** The statement after the loop: the connection between the last and
    the first point. *)
Definition close_tour (contour : list Point) (s : state) : result (list vertex) :=
  c0 <- getitem contour 0 ;;
  line <- __draw_line (point s) c0 divider ;;
  Ok (contour_final s ++ line).

(** Lines 119 to 132 of the script, with the loop bounded by [fuel]. *)
Definition trace_contour (fuel : nat) (contour : list Point)
    : option (result (list vertex)) :=
  match getitem contour 0 with
  | Raise e => Some (Raise e)
  | Ok p0 =>
      match while_loop fuel contour (initial p0) with
      | None => None
      | Some (Raise e) => Some (Raise e)
      | Some (Ok s) => Some (close_tour contour s)
      end
  end.

(** The loop never needs more passes than there are contour points. *)
Definition tour (contour : list Point) : option (result state) :=
  match getitem contour 0 with
  | Raise e => Some (Raise e)
  | Ok p0 => while_loop (length contour) contour (initial p0)
  end.

Definition order_path (contour : list Point) : option (result (list vertex)) :=
  trace_contour (length contour) contour.

(** ** The slice around the tour *)

Inductive level : Type :=
| DEBUG
| WARNING.

(** What a slice can change: the files written so far (latest first) and
    the calls made to the logger. *)
Record world : Type := {
  files : list (string * list vertex);
  log : list (level * string)
}.

Definition logger (l : level) (msg : string) (w : world) : world :=
  {| files := files w; log := log w ++ [(l, msg)] |}.

(** [open(file_name, 'w')] and one line per point. *)
Definition write_file (file_name : string) (lines : list vertex) (w : world) : world :=
  {| files := (file_name, lines) :: files w; log := log w |}.

(** What a slice of the loop of [main] does once its contour positions
    are collected (lines 115 to 138); [Ok] also covers [continue]. *)
Definition slice_body (fuel : nat) (file_name : string)
    (contour : list Point) (w : world) : option (result world) :=
  if 0 =? length contour then
    Some (Ok (logger WARNING
                ("Empty contour for file " ++ file_name ++ ". Skipping.")%string w))
  else
    match trace_contour fuel contour with
    | None => None
    | Some (Raise e) => Some (Raise e)
    | Some (Ok path) =>
        Some (Ok (write_file file_name path
                    (logger DEBUG ("Creating file " ++ file_name ++ "...")%string w)))
    end.

Definition process_slice (file_name : string) (contour : list Point) (w : world)
    : option (result world) :=
  slice_body (length contour) file_name contour w.

(** ** Predicates used in the statements *)

(** Every contour position has at least the two coordinates the helpers
    read. *)
Definition well_formed (contour : list Point) : Prop :=
  Forall (fun p => 2 <= length p) contour.

(** [p] and [q] are farther apart than √8. *)
Definition far (p q : Point) : bool :=
  match __dist p q with
  | Ok d => surd_gtb d (math_sqrt 8%Z)
  | Raise _ => false
  end.


(** Position [j] is not in [processed]. *)
Definition unvisited (processed : list nat) (j : nat) : Prop :=
  py_in j processed = false.

(** States the loop of [main] can be in at the start of a pass. *)
Inductive reachable (contour : list Point) : state -> Prop :=
| reach_initial :
    forall p0, getitem contour 0 = Ok p0 -> reachable contour (initial p0)
| reach_continue :
    forall s s', reachable contour s ->
                 loop_body contour s = Ok (Continue s') ->
                 reachable contour s'.


(** The state seen when every point is cut down to its first two
    coordinates. *)
Definition truncate (s : state) : state :=
  {| point := firstn 2 (point s);
     processed := processed s;
     contour_final := contour_final s |}.

Definition truncate_flow (f : flow) : flow :=
  match f with
  | Break s => Break (truncate s)
  | Continue s => Continue (truncate s)
  end.

Definition result_map {A B : Type} (f : A -> B) (r : result A) : result B :=
  match r with
  | Ok a => Ok (f a)
  | Raise e => Raise e
  end.

(** The inputs of the scenarios. *)
Definition scenario_A : list Point := [[0;0];[1;0];[1;1];[0;1]]%Z.
Definition scenario_C : list Point := [[0;0];[1;0];[10;10];[11;10]]%Z.

(** A chain of three points two apart and a fourth point four further. *)
Definition chain_and_outlier : list Point := [[0;0];[2;0];[4;0];[8;0]]%Z.

(** Two clusters: the positions below [n], and the others. *)
Definition two_clusters (n : nat) (i : nat) : nat :=
  if i <? n then 0 else 1.

(** ** The contour positions of a slice *)

(** One computation per element, in order, stopped by the first
    exception. *)
Fixpoint traverse {A B : Type} (f : A -> result B) (l : list A)
    : result (list B) :=
  match l with
  | [] => Ok []
  | a :: l' => b <- f a ;; bs <- traverse f l' ;; Ok (b :: bs)
  end.

(** Lines 109 to 113 of [main]: [contour_tmp] is what [nonzero()]
    returned, one array of indices per axis, and [contour[i]] collects
    [contour_tmp[j][i]] over the axes [j]. *)
Definition contour_positions (contour_tmp : list (list Z)) : result (list Point) :=
  first <- getitem contour_tmp 0 ;;
  traverse
    (fun i =>
       traverse (fun j => axis <- getitem contour_tmp j ;; getitem axis i)
                (seq 0 (length contour_tmp)))
    (seq 0 (length first)).

(** All the axes hold [n] indices. *)
Definition rectangular (n : nat) (contour_tmp : list (list Z)) : Prop :=
  Forall (fun axis => length axis = n) contour_tmp.

(** ** Removal of all objects except the largest *)

(** [len((image_labeled == i).nonzero()[0])]: the number of cells of the
    labelled slice, taken as the sequence of its cells, that hold [i]. *)
Definition label_size (image_labeled : list nat) (i : nat) : nat :=
  length (filter (Nat.eqb i) image_labeled).

(** The first loop over the labels (lines 82 to 85), for the labels [ls]
    still to come. *)
Fixpoint find_biggest (image_labeled : list nat) (ls : list nat)
    (biggest biggest_size : nat) : nat * nat :=
  match ls with
  | [] => (biggest, biggest_size)
  | i :: ls' =>
      if biggest_size <? label_size image_labeled i
      then find_biggest image_labeled ls' i (label_size image_labeled i)
      else find_biggest image_labeled ls' biggest biggest_size
  end.

(** [image_labeled[image_labeled == i] = 0]. *)
Definition clear_label (i : nat) (image_labeled : list nat) : list nat :=
  map (fun v => if v =? i then 0 else v) image_labeled.

(** The second loop over the labels (lines 87 to 89). *)
Fixpoint remove_others (biggest : nat) (ls : list nat)
    (image_labeled : list nat) : list nat :=
  match ls with
  | [] => image_labeled
  | i :: ls' =>
      if i =? biggest then remove_others biggest ls' image_labeled
      else remove_others biggest ls' (clear_label i image_labeled)
  end.

(** [astype(scipy.bool_)] on labels. *)
Definition astype_bool (image_labeled : list nat) : list bool :=
  map (fun v => negb (v =? 0)) image_labeled.

(** Lines 77 to 91, given the slice and the two results of
    [scipy.ndimage.label] on it. *)
Definition largest_object (image_slice : list bool)
    (image_labeled : list nat) (labels : nat) : list bool :=
  if 1 <? labels then
    let biggest := fst (find_biggest image_labeled (seq 1 labels) 0 0) in
    astype_bool (remove_others biggest (seq 1 labels) image_labeled)
  else image_slice.

(** ** File names and the loop over the slices *)

(** The command-line arguments the loop reads. *)
Module Args.
Record t : Type := {
  target : string;
  id : string;
  ctype : string;
  offset : Z;
  force : bool
}.
End Args.

Fixpoint zeros (n : nat) : string :=
  match n with
  | 0 => EmptyString
  | S n' => String "0" (zeros n')
  end.

(** A digit string filled with zeros on the left up to [width]. *)
Definition zfill (width : nat) (s : string) : string :=
  (zeros (width - String.length s) ++ s)%string.

(** The decimal digits of a natural number. *)
Definition digits (n : N) : string :=
  NilEmpty.string_of_uint (N.to_uint n).

(** The format [{:04d}]: sign first, then zeros up to four characters in
    all. *)
Definition format_04d (z : Z) : string :=
  if (z <? 0)%Z then String "-" (zfill 3 (digits (Z.abs_N z)))
  else zfill 4 (digits (Z.to_N z)).

(** Line 64: the name of the file of a slice. *)
Definition file_name_of (a : Args.t) (slice_idx : nat) : string :=
  (Args.target a ++ "/P" ++ Args.id a ++ "-"
   ++ format_04d (Z.of_nat slice_idx + Args.offset a)
   ++ "-" ++ Args.ctype a ++ "contour-auto.txt")%string.

(** [os.path.exists] on the files of the world. *)
Definition path_exists (file_name : string) (w : world) : bool :=
  existsb (fun entry => String.eqb file_name (fst entry)) (files w).

(** The content of a file: that of its latest writing. *)
Definition read_file (file_name : string) (w : world) : option (list vertex) :=
  option_map snd (find (fun entry => String.eqb file_name (fst entry)) (files w)).

(** How the loop over the slices ends: normally, by an exception, or, in
    the model only, by a tour that ran out of passes. *)
Inductive outcome : Type :=
| Finished (w : world)
| Crashed (e : exc) (w : world)
| Unfinished (w : world).

(** One slice (lines 60 to 138).  [positions slice_idx] stands for what
    lines 72 to 109 compute from the image for this slice, the value of
    [image_slice.nonzero()]; the [info] message of line 78 is not
    recorded. *)
Definition slice_step (a : Args.t) (positions : nat -> list (list Z))
    (slice_idx : nat) (w : world) : option (result world) :=
  let file_name := file_name_of a slice_idx in
  if negb (Args.force a) && path_exists file_name w then
    Some (Ok (logger WARNING
                ("The output file " ++ file_name ++ " already exists. Skipping.")%string
                w))
  else
    match contour_positions (positions slice_idx) with
    | Raise e => Some (Raise e)
    | Ok contour => process_slice file_name contour w
    end.

(** The [for slice_idx in ...] loop over the indices [idxs]. *)
Fixpoint for_slices (a : Args.t) (positions : nat -> list (list Z))
    (idxs : list nat) (w : world) : outcome :=
  match idxs with
  | [] => Finished w
  | slice_idx :: idxs' =>
      match slice_step a positions slice_idx w with
      | None => Unfinished w
      | Some (Raise e) => Crashed e w
      | Some (Ok w') => for_slices a positions idxs' w'
      end
  end.

(** The loop of [main] over the [n] slices of the chosen dimension. *)
Definition main_loop (a : Args.t) (positions : nat -> list (list Z))
    (n : nat) (w : world) : outcome :=
  for_slices a positions (seq 0 n) w.

(** The world an outcome leaves. *)
Definition final_world (o : outcome) : world :=
  match o with
  | Finished w => w
  | Crashed _ w => w
  | Unfinished w => w
  end.

(** * Properties *)

(** ** Distances denote real numbers *)

Lemma surd_ltb_real (a b : surd) :
  (0 <= radicand a)%Z -> (0 <= radicand b)%Z ->
  (surd_ltb a b = true <-> (surd_real a < surd_real b)%R).
Proof.
  intros Ha Hb. unfold surd_ltb, surd_real.
  rewrite Z.ltb_lt. split; intro H.
  - apply sqrt_lt_1_alt. split.
    + now apply IZR_le.
    + now apply IZR_lt.
  - apply lt_IZR. apply sqrt_lt_0_alt. exact H.
Qed.

Lemma of_int_real (n : Z) : (0 <= n)%Z -> surd_real (of_int n) = IZR n.
Proof.
  intro Hn. unfold surd_real, of_int. simpl radicand.
  rewrite mult_IZR. apply sqrt_square. now apply IZR_le.
Qed.

(** ** The error monad and indexing *)

Lemma bind_Ok {A B : Type} (m : result A) (k : A -> result B) (b : B) :
  bind m k = Ok b -> exists a, m = Ok a /\ k a = Ok b.
Proof.
  destruct m as [a|e]; simpl; intro H.
  - exists a. split; [reflexivity | exact H].
  - discriminate H.
Qed.

Lemma getitem_Ok {A : Type} (l : list A) (i : nat) (a : A) :
  getitem l i = Ok a <-> nth_error l i = Some a.
Proof.
  unfold getitem. destruct (nth_error l i); split; intro H;
    inversion H; reflexivity.
Qed.

Lemma getitem_firstn {A : Type} (l : list A) (n i : nat) :
  i < n -> getitem (firstn n l) i = getitem l i.
Proof.
  intro H. unfold getitem. now rewrite nth_error_firstn, (proj2 (Nat.ltb_lt i n) H).
Qed.

Lemma py_in_In (pos : nat) (processed : list nat) :
  py_in pos processed = true <-> In pos processed.
Proof.
  unfold py_in. rewrite existsb_exists. split.
  - intros [x [Hx He]]. apply Nat.eqb_eq in He. now subst.
  - intro H. exists pos. split; [exact H | apply Nat.eqb_refl].
Qed.

Lemma unvisited_not_In (processed : list nat) (j : nat) :
  unvisited processed j <-> ~ In j processed.
Proof.
  unfold unvisited. rewrite <- py_in_In.
  destruct (py_in j processed); split; intro H.
  - discriminate H.
  - exfalso. now apply H.
  - intro H'. discriminate H'.
  - reflexivity.
Qed.

(** ** [__dist] and [__draw_line] on their own *)

Lemma two_coordinates (p : Point) :
  2 <= length p -> exists x y rest, p = x :: y :: rest.
Proof.
  destruct p as [|x [|y rest]]; simpl; intro H; try lia.
  now exists x, y, rest.
Qed.

Lemma dist_cons (x1 y1 x2 y2 : Z) (r1 r2 : list Z) :
  __dist (x1 :: y1 :: r1) (x2 :: y2 :: r2)
  = Ok (Sqrt ((x1 - x2) ^ 2 + (y1 - y2) ^ 2)%Z).
Proof. reflexivity. Qed.

Lemma dist_total (p q : Point) :
  2 <= length p -> 2 <= length q -> exists d, __dist p q = Ok d.
Proof.
  intros Hp Hq.
  destruct (two_coordinates p Hp) as (x1 & y1 & r1 & ->).
  destruct (two_coordinates q Hq) as (x2 & y2 & r2 & ->).
  eexists. apply dist_cons.
Qed.

Lemma dist_firstn (p q : Point) :
  __dist (firstn 2 p) (firstn 2 q) = __dist p q.
Proof.
  unfold __dist. now rewrite !getitem_firstn by lia.
Qed.

Lemma draw_line_firstn (p q : Point) (n : positive) :
  __draw_line (firstn 2 p) (firstn 2 q) n = __draw_line p q n.
Proof.
  unfold __draw_line. now rewrite !getitem_firstn by lia.
Qed.

Lemma draw_line_cons (x1 y1 x2 y2 : Z) (r1 r2 : list Z) (n : positive) :
  __draw_line (x1 :: y1 :: r1) (x2 :: y2 :: r2) n
  = Ok (map (fun i => [coord x1 (x1 - x2)%Z n i; coord y1 (y1 - y2)%Z n i])
            (seq 1 (Pos.to_nat n))).
Proof. reflexivity. Qed.

Lemma draw_line_total (p q : Point) (n : positive) :
  2 <= length p -> 2 <= length q -> exists line, __draw_line p q n = Ok line.
Proof.
  intros Hp Hq.
  destruct (two_coordinates p Hp) as (x1 & y1 & r1 & ->).
  destruct (two_coordinates q Hq) as (x2 & y2 & r2 & ->).
  eexists. apply draw_line_cons.
Qed.

Lemma draw_line_shape (p q : Point) (n : positive) (line : list vertex) :
  __draw_line p q n = Ok line ->
  length line = Pos.to_nat n /\ Forall (fun v => length v = 2) line.
Proof.
  unfold __draw_line. intro H.
  apply bind_Ok in H as (a0 & _ & H). apply bind_Ok in H as (b0 & _ & H).
  apply bind_Ok in H as (a1 & _ & H). apply bind_Ok in H as (b1 & _ & H).
  inversion H; subst line; clear H. split.
  - now rewrite length_map, length_seq.
  - apply Forall_forall. intros v Hv. apply in_map_iff in Hv as (i & <- & _).
    reflexivity.
Qed.

Lemma Qred_inject_Z (z : Z) : Qred (inject_Z z) = inject_Z z.
Proof.
  unfold Qred, inject_Z.
  pose proof (Z.ggcd_gcd z 1) as Hg.
  pose proof (Z.ggcd_correct_divisors z 1) as Hd.
  destruct (Z.ggcd z 1) as [g [aa bb]]. simpl in *.
  rewrite Z.gcd_1_r in Hg. subst g. destruct Hd as [Ha Hb].
  assert (Haa : aa = z) by lia. assert (Hbb : bb = 1%Z) by lia.
  rewrite Haa, Hbb. reflexivity.
Qed.

(** The last coordinate pair the routine computes at [divider = 2]. *)
Lemma coord_last (a b : Z) : coord a (a - b)%Z 2 2 = inject_Z (2 * a - b).
Proof.
  unfold coord.
  transitivity (Qred (inject_Z (2 * a - b))).
  - apply Qred_complete. unfold Qeq, inject_Z, Qplus, Qmult. cbn [Qnum Qden].
    change (Z.of_nat 2) with 2%Z. lia.
  - apply Qred_inject_Z.
Qed.

(** ** The scan of [__find_nearest] *)

Section Scan.
Variable pt : Point.
Variable processed : list nat.

(** What the [for] loop leaves in [nearest] and [distance]: the distance
    never grows, it is a lower bound for every position scanned that is
    not in [processed], and [nearest] either is untouched or is the
    first scanned position at that distance. *)
Lemma scan_spec :
  forall rest pos nearest distance n' d',
    find_nearest_scan pt processed pos rest nearest distance = Ok (n', d') ->
    (radicand d' <= radicand distance)%Z /\
    (forall j q dj,
        nth_error rest j = Some q -> unvisited processed (pos + j) ->
        __dist pt q = Ok dj -> (radicand d' <= radicand dj)%Z) /\
    ((n' = nearest /\ d' = distance) \/
     (exists k p,
         n' = PyInt (pos + k) /\ nth_error rest k = Some p /\
         unvisited processed (pos + k) /\ __dist pt p = Ok d' /\
         (radicand d' < radicand distance)%Z /\
         forall j q dj,
           j < k -> nth_error rest j = Some q ->
           unvisited processed (pos + j) -> __dist pt q = Ok dj ->
           (radicand d' < radicand dj)%Z)).
Proof.
  induction rest as [|p rest IH]; intros pos nearest distance n' d' H;
    simpl in H.
  - inversion H; subst. split; [lia|]. split.
    + intros [|j] q dj Hq; discriminate Hq.
    + left. split; reflexivity.
  - destruct (py_in pos processed) eqn:Hin.
    + apply IH in H as (Hle & Hmin & Hsel). split; [exact Hle|]. split.
      * intros [|j] q dj Hq Hu Hd.
        -- rewrite Nat.add_0_r in Hu. unfold unvisited in Hu. congruence.
        -- apply (Hmin j q dj); auto.
           now replace (S pos + j) with (pos + S j) by lia.
      * destruct Hsel as [Hsame | (k & p' & Hn & Hk & Hu & Hd & Hlt & Hfirst)].
        -- left. exact Hsame.
        -- right. exists (S k), p'.
           replace (pos + S k) with (S pos + k) by lia.
           repeat split; auto.
           intros [|j] q dj Hj Hq Huj Hdj.
           ++ rewrite Nat.add_0_r in Huj. unfold unvisited in Huj. congruence.
           ++ apply (Hfirst j q dj); auto; try lia.
              now replace (S pos + j) with (pos + S j) by lia.
    + destruct (__dist pt p) as [dist|e] eqn:Hdist; simpl in H;
        [|discriminate H].
      destruct (surd_ltb dist distance) eqn:Hcmp; unfold surd_ltb in Hcmp.
      * apply Z.ltb_lt in Hcmp.
        apply IH in H as (Hle & Hmin & Hsel). split; [lia|]. split.
        -- intros [|j] q dj Hq Hu Hd.
           ++ simpl in Hq. inversion Hq; subst q.
              rewrite Hdist in Hd. inversion Hd; subst dj. exact Hle.
           ++ apply (Hmin j q dj); auto.
              now replace (S pos + j) with (pos + S j) by lia.
        -- right.
           destruct Hsel as [[Hn Hd] | (k & p' & Hn & Hk & Hu & Hd & Hlt & Hfirst)].
           ++ exists 0, p. subst n' d'. rewrite Nat.add_0_r.
              repeat split; auto. intros j q dj Hj. lia.
           ++ exists (S k), p'.
              replace (pos + S k) with (S pos + k) by lia.
              repeat split; auto; try lia.
              intros [|j] q dj Hj Hq Huj Hdj.
              ** simpl in Hq. inversion Hq; subst q.
                 rewrite Hdist in Hdj. inversion Hdj; subst dj. exact Hlt.
              ** apply (Hfirst j q dj); auto; try lia.
                 now replace (S pos + j) with (pos + S j) by lia.
      * apply Z.ltb_ge in Hcmp.
        apply IH in H as (Hle & Hmin & Hsel). split; [exact Hle|]. split.
        -- intros [|j] q dj Hq Hu Hd.
           ++ simpl in Hq. inversion Hq; subst q.
              rewrite Hdist in Hd. inversion Hd; subst dj. lia.
           ++ apply (Hmin j q dj); auto.
              now replace (S pos + j) with (pos + S j) by lia.
        -- destruct Hsel as [Hsame | (k & p' & Hn & Hk & Hu & Hd & Hlt & Hfirst)].
           ++ left. exact Hsame.
           ++ right. exists (S k), p'.
              replace (pos + S k) with (S pos + k) by lia.
              repeat split; auto.
              intros [|j] q dj Hj Hq Huj Hdj.
              ** simpl in Hq. inversion Hq; subst q.
                 rewrite Hdist in Hdj. inversion Hdj; subst dj. lia.
              ** apply (Hfirst j q dj); auto; try lia.
                 now replace (S pos + j) with (pos + S j) by lia.
Qed.

(** The scan raises only if [__dist] does on a position it looks at. *)
Lemma scan_total :
  forall rest pos nearest distance,
    (forall j q, nth_error rest j = Some q -> unvisited processed (pos + j) ->
                 exists d, __dist pt q = Ok d) ->
    exists r, find_nearest_scan pt processed pos rest nearest distance = Ok r.
Proof.
  induction rest as [|p rest IH]; intros pos nearest distance Hd; simpl.
  - eexists. reflexivity.
  - assert (Hrest : forall j q, nth_error rest j = Some q ->
              unvisited processed (S pos + j) -> exists d, __dist pt q = Ok d).
    { intros j q Hq Hu. apply (Hd (S j) q Hq).
      now replace (pos + S j) with (S pos + j) by lia. }
    destruct (py_in pos processed) eqn:Hin.
    + now apply IH.
    + destruct (Hd 0 p eq_refl) as [d Hp].
      { now rewrite Nat.add_0_r. }
      rewrite Hp. simpl. destruct (surd_ltb d distance); now apply IH.
Qed.
End Scan.

(** ** [__find_nearest] *)

(** A returned position is not in [processed], lies within √8, is at
    minimum distance among the positions not in [processed], and is the
    first position at that distance. *)
Lemma find_nearest_index (pt : Point) (contour : list Point)
    (processed : list nat) (k : nat) :
  __find_nearest pt contour processed = Ok (PyInt k) ->
  exists p d,
    nth_error contour k = Some p /\ unvisited processed k /\
    __dist pt p = Ok d /\ surd_leb d (math_sqrt 8%Z) = true /\
    forall j q dj,
      nth_error contour j = Some q -> unvisited processed j ->
      __dist pt q = Ok dj ->
      (radicand d <= radicand dj)%Z /\ (j < k -> (radicand d < radicand dj)%Z).
Proof.
  unfold __find_nearest. intro H.
  apply bind_Ok in H as ([n' d'] & Hscan & H). simpl in H.
  apply scan_spec in Hscan as (_ & Hmin & Hsel).
  destruct (surd_gtb d' (math_sqrt 8%Z)) eqn:Hgt; [discriminate H|].
  inversion H; subst n'; clear H.
  destruct Hsel as [[Hn _] | (k' & p & Hn & Hk & Hu & Hd & _ & Hfirst)];
    [discriminate Hn|].
  simpl in Hn, Hu, Hfirst, Hmin. inversion Hn; subst k'; clear Hn.
  exists p, d'. repeat split; auto.
  - unfold surd_gtb, surd_ltb in Hgt. unfold surd_leb.
    apply Z.ltb_ge in Hgt. now apply Z.leb_le.
  - now apply (Hmin j q dj).
  - intro Hj. now apply (Hfirst j q dj).
Qed.


(** The search raises only if [__dist] does on a position it looks at. *)
Lemma find_nearest_total (pt : Point) (contour : list Point)
    (processed : list nat) :
  (forall j q, nth_error contour j = Some q -> unvisited processed j ->
               exists d, __dist pt q = Ok d) ->
  exists r, __find_nearest pt contour processed = Ok r.
Proof.
  intro Hd. unfold __find_nearest.
  destruct (scan_total pt processed contour 0 PyFalse (of_int 10000000%Z))
    as [r Hr].
  { intros j q Hq Hu. now apply (Hd j q). }
  rewrite Hr. simpl. destruct (surd_gtb (snd r) (math_sqrt 8%Z)); eexists; reflexivity.
Qed.

(** Position 0 is never returned once it is in [processed]. *)
Lemma find_nearest_not_zero (pt : Point) (contour : list Point)
    (processed : list nat) :
  In 0 processed -> __find_nearest pt contour processed <> Ok (PyInt 0).
Proof.
  intros Hin H. apply find_nearest_index in H as (p & d & _ & Hu & _).
  apply unvisited_not_In in Hu. now apply Hu.
Qed.

(** ** One pass through the loop *)

Lemma loop_body_Continue (contour : list Point) (s s' : state) :
  loop_body contour s = Ok (Continue s') ->
  exists k p line,
    __find_nearest (point s) contour (processed s) = Ok (PyInt (S k)) /\
    nth_error contour (S k) = Some p /\
    __draw_line (point s) p divider = Ok line /\
    s' = {| point := p;
            processed := processed s ++ [S k];
            contour_final := contour_final s ++ line |}.
Proof.
  unfold loop_body. destruct (truthy (point s)); [|discriminate].
  intro H. apply bind_Ok in H as (r & Hr & H).
  destruct r as [|[|k]]; simpl in H; try discriminate H.
  apply bind_Ok in H as (p & Hp & H). apply bind_Ok in H as (line & Hl & H).
  inversion H; subst s'; clear H.
  exists k, p, line. repeat split; auto. now apply getitem_Ok.
Qed.

Lemma loop_body_Break (contour : list Point) (s s' : state) :
  loop_body contour s = Ok (Break s') ->
  s' = s /\
  (point s = [] \/
   exists r, __find_nearest (point s) contour (processed s) = Ok r /\
             eq_False r = true).
Proof.
  unfold loop_body. destruct (point s) as [|x rest] eqn:Hp; cbn [truthy].
  - intro H. assert (s' = s) by congruence. subst s'.
    split; [reflexivity | now left].
  - intro H. apply bind_Ok in H as (r & Hr & H).
    destruct (eq_False r) eqn:He.
    + assert (s' = s) by congruence. subst s'.
      split; [reflexivity|]. right. now exists r.
    + apply bind_Ok in H as (p & _ & H). apply bind_Ok in H as (line & _ & H).
      discriminate H.
Qed.

(** ** States of the loop *)

(** [processed] always starts with 0, has no repetition, holds positions
    of the contour only, and [point] is the contour point at its last
    entry. *)
Lemma reachable_processed (contour : list Point) (s : state) :
  reachable contour s ->
  (exists rest, processed s = 0 :: rest) /\
  NoDup (processed s) /\
  Forall (fun i => i < length contour) (processed s) /\
  nth_error contour (last (processed s) 0) = Some (point s).
Proof.
  induction 1 as [p0 Hp0 | s s' _ IH Hstep].
  - apply getitem_Ok in Hp0. simpl. repeat split.
    + now exists [].
    + constructor; [intros [] | constructor].
    + constructor; [|constructor].
      apply nth_error_Some. now rewrite Hp0.
    + exact Hp0.
  - destruct IH as ([rest Hrest] & Hnd & Hall & _).
    apply loop_body_Continue in Hstep as (k & p & line & Hfind & Hp & _ & ->).
    apply find_nearest_index in Hfind as (_ & _ & _ & Hu & _).
    apply unvisited_not_In in Hu. simpl. repeat split.
    + exists (rest ++ [S k]). now rewrite Hrest.
    + apply NoDup_app; auto.
      * constructor; [intros [] | constructor].
      * intros a Ha [<- | []]. now apply Hu.
    + apply Forall_app. split; auto. constructor; [|constructor].
      apply nth_error_Some. now rewrite Hp.
    + now rewrite last_last.
Qed.

Lemma reachable_zero_visited (contour : list Point) (s : state) :
  reachable contour s -> In 0 (processed s).
Proof.
  intro H. apply reachable_processed in H as ([rest ->] & _). now left.
Qed.

Lemma reachable_point (contour : list Point) (s : state) :
  well_formed contour -> reachable contour s -> 2 <= length (point s).
Proof.
  intros Hwf H. apply reachable_processed in H as (_ & _ & _ & Hp).
  apply nth_error_In in Hp. unfold well_formed in Hwf.
  rewrite Forall_forall in Hwf. now apply Hwf.
Qed.


(** Every entry of [contour_final] has two coordinates, and two of them are
    added per entry of [processed] after the first. *)
Lemma reachable_contour_final (contour : list Point) (s : state) :
  reachable contour s ->
  Forall (fun v => length v = 2) (contour_final s) /\
  length (contour_final s) + 2 = 2 * length (processed s).
Proof.
  induction 1 as [p0 Hp0 | s s' _ [IHv IHl] Hstep].
  - split; [constructor | reflexivity].
  - apply loop_body_Continue in Hstep as (k & p & line & _ & _ & Hline & ->).
    apply draw_line_shape in Hline as [Hlen Hv]. simpl. split.
    + apply Forall_app. now split.
    + rewrite !length_app, Hlen. simpl. unfold divider.
      change (Pos.to_nat 2) with 2. lia.
Qed.

(** ** The loop as a whole *)

(** The loop ends in a state it can reach, on a pass that breaks. *)
Lemma while_loop_reachable (contour : list Point) :
  forall fuel s s',
    reachable contour s -> while_loop fuel contour s = Some (Ok s') ->
    reachable contour s' /\ loop_body contour s' = Ok (Break s').
Proof.
  induction fuel as [|fuel IH]; intros s s' Hreach H; simpl in H;
    [discriminate H|].
  destruct (loop_body contour s) as [[sb | sc] | e] eqn:Hbody.
  - inversion H; subst sb.
    pose proof (loop_body_Break _ _ _ Hbody) as [Heq _]. subst s'. now split.
  - apply (IH sc); [|exact H]. now apply reach_continue with s.
  - discriminate H.
Qed.

(** More passes do not change the outcome of a loop that ended. *)
Lemma while_loop_more_fuel (contour : list Point) :
  forall fuel fuel' s r,
    fuel <= fuel' -> while_loop fuel contour s = Some r ->
    while_loop fuel' contour s = Some r.
Proof.
  induction fuel as [|fuel IH]; intros fuel' s r Hle H; simpl in H;
    [discriminate H|].
  destruct fuel' as [|fuel']; [lia|]. simpl.
  destruct (loop_body contour s) as [[sb | sc] | e]; auto.
  apply IH; [lia | exact H].
Qed.

Lemma while_loop_fuel_irrelevant (contour : list Point) :
  forall fuel1 fuel2 s r1 r2,
    while_loop fuel1 contour s = Some r1 ->
    while_loop fuel2 contour s = Some r2 -> r1 = r2.
Proof.
  intros fuel1 fuel2 s r1 r2 H1 H2.
  destruct (Nat.le_ge_cases fuel1 fuel2) as [Hle | Hle].
  - apply (while_loop_more_fuel contour _ _ s r1 Hle) in H1. congruence.
  - apply (while_loop_more_fuel contour _ _ s r2 Hle) in H2. congruence.
Qed.

(** ** Termination and absence of exceptions *)

Lemma loop_body_total (contour : list Point) (s : state) :
  well_formed contour -> reachable contour s ->
  exists f, loop_body contour s = Ok f.
Proof.
  intros Hwf Hreach. pose proof (reachable_point _ _ Hwf Hreach) as Hpt.
  unfold loop_body.
  destruct (two_coordinates _ Hpt) as (x & y & rest & Hxy).
  rewrite Hxy. cbn [truthy]. rewrite <- Hxy.
  destruct (find_nearest_total (point s) contour (processed s)) as [r Hr].
  { intros j q Hq _. apply dist_total; [exact Hpt|].
    apply nth_error_In in Hq. unfold well_formed in Hwf.
    rewrite Forall_forall in Hwf. now apply Hwf. }
  rewrite Hr. cbn [bind]. destruct (eq_False r) eqn:He.
  - eexists. reflexivity.
  - destruct r as [|k]; [discriminate He|]. cbn [as_index].
    pose proof (find_nearest_index _ _ _ _ Hr) as (p & _ & Hp & _).
    rewrite (proj2 (getitem_Ok _ _ _) Hp). cbn [bind].
    destruct (draw_line_total (point s) p divider) as [line Hline];
      [exact Hpt | |].
    { apply nth_error_In in Hp. unfold well_formed in Hwf.
      rewrite Forall_forall in Hwf. now apply Hwf. }
    rewrite Hline. cbn [bind]. eexists. reflexivity.
Qed.

Lemma processed_bounded (contour : list Point) (s : state) :
  reachable contour s -> length (processed s) <= length contour.
Proof.
  intro H. apply reachable_processed in H as (_ & Hnd & Hall & _).
  rewrite <- (length_seq (length contour) 0).
  apply NoDup_incl_length; [exact Hnd|].
  intros i Hi. apply in_seq. rewrite Forall_forall in Hall.
  specialize (Hall i Hi). lia.
Qed.

(** The loop ends once it is given more passes than there are positions
    left to visit. *)
Lemma while_loop_terminates (contour : list Point) :
  forall fuel s,
    reachable contour s ->
    length contour < fuel + length (processed s) ->
    exists r, while_loop fuel contour s = Some r.
Proof.
  induction fuel as [|fuel IH]; intros s Hreach Hfuel.
  - pose proof (processed_bounded _ _ Hreach). simpl in Hfuel. lia.
  - simpl. destruct (loop_body contour s) as [[sb | sc] | e] eqn:Hbody.
    + eexists. reflexivity.
    + apply IH; [now apply reach_continue with s|].
      apply loop_body_Continue in Hbody as (k & p & line & _ & _ & _ & ->).
      simpl. rewrite length_app. simpl. lia.
    + eexists. reflexivity.
Qed.

Lemma while_loop_no_raise (contour : list Point) :
  well_formed contour ->
  forall fuel s r,
    reachable contour s -> while_loop fuel contour s = Some r ->
    exists s', r = Ok s'.
Proof.
  intro Hwf. induction fuel as [|fuel IH]; intros s r Hreach H; simpl in H;
    [discriminate H|].
  destruct (loop_body_total _ _ Hwf Hreach) as [f Hf]. rewrite Hf in H.
  destruct f as [sb | sc].
  - inversion H. now exists sb.
  - apply (IH sc); [now apply reach_continue with s | exact H].
Qed.

(** On a non-empty contour whose points have two coordinates the loop of
    [main] ends, without exception, in a reachable state on which the
    pass breaks. *)
Lemma tour_total (contour : list Point) :
  well_formed contour -> contour <> [] ->
  exists p0 s,
    nth_error contour 0 = Some p0 /\ tour contour = Some (Ok s) /\
    reachable contour s /\ loop_body contour s = Ok (Break s).
Proof.
  intros Hwf Hne. destruct contour as [|p0 rest] eqn:Hc; [contradiction|].
  rewrite <- Hc in *.
  assert (Hp0 : nth_error contour 0 = Some p0) by now rewrite Hc.
  assert (Hinit : reachable contour (initial p0)).
  { constructor. now apply getitem_Ok. }
  destruct (while_loop_terminates contour (length contour) (initial p0) Hinit)
    as [r Hr].
  { simpl. lia. }
  destruct (while_loop_no_raise contour Hwf _ _ _ Hinit Hr) as [s ->].
  exists p0, s. unfold tour. rewrite (proj2 (getitem_Ok _ _ _) Hp0).
  split; [exact Hp0|]. split; [exact Hr|].
  now apply (while_loop_reachable contour (length contour) (initial p0)).
Qed.

(** [order_path] is the tour followed by the closing statement. *)
Lemma order_path_tour (contour : list Point) (s : state) :
  tour contour = Some (Ok s) ->
  order_path contour = Some (close_tour contour s).
Proof.
  unfold tour, order_path, trace_contour.
  destruct (getitem contour 0) as [p0|e]; [|discriminate].
  intro H. now rewrite H.
Qed.

Lemma tour_reachable (contour : list Point) (s : state) :
  tour contour = Some (Ok s) ->
  reachable contour s /\ loop_body contour s = Ok (Break s).
Proof.
  unfold tour. destruct (getitem contour 0) as [p0|e] eqn:Hp0; [|discriminate].
  apply while_loop_reachable. now constructor.
Qed.

(** * The claims *)

(** ** Interpolation *)

(** At [divider = 2] the second point [__draw_line] returns is the mirror
    image [2 * p1 - p2] of the destination through the origin; it is the
    destination only when the two points agree on both coordinates. *)
Lemma draw_line_last_point (x1 y1 x2 y2 : Z) (r1 r2 : list Z) :
  exists first,
    __draw_line (x1 :: y1 :: r1) (x2 :: y2 :: r2) divider
    = Ok [first; [inject_Z (2 * x1 - x2); inject_Z (2 * y1 - y2)]] /\
    ([inject_Z (2 * x1 - x2); inject_Z (2 * y1 - y2)]
     = [inject_Z x2; inject_Z y2] <-> x1 = x2 /\ y1 = y2).
Proof.
  eexists. split.
  - rewrite draw_line_cons. unfold divider.
    change (seq 1 (Pos.to_nat 2)) with [1; 2]. cbn [map].
    rewrite !coord_last. reflexivity.
  - unfold inject_Z. split.
    + intro H. injection H as Hx Hy.
      change (2 * x1 - x2 = x2)%Z in Hx. change (2 * y1 - y2 = y2)%Z in Hy. lia.
    + intros [-> ->]. repeat f_equal; lia.
Qed.

(** C1. Evaluation of the interpolation routine on the origin (0,0) and
    the destination (1,0) with two subdivisions: the two points returned
    are (-1/2, 0) and (-1, 0).  Neither lies on the segment from (0,0) to
    (1,0) and the last one is not the destination (1,0). *)
Theorem draw_line_unit_step :
  __draw_line [0; 0]%Z [1; 0]%Z divider
  = Ok [[(-1 # 2)%Q; 0%Q]; [(-1)%Q; 0%Q]] /\
  [(-1)%Q; 0%Q] <> [1%Q; 0%Q].
Proof.
  split; [reflexivity | discriminate].
Qed.

(** C2. Evaluation of the path orderer on the corners of the unit square
    (0,0), (1,0), (1,1), (0,1): the positions are visited in the order
    0, 1, 2, 3 and eight points are produced, but they are the points
    (-1/2,0), (-1,0), (1,-1/2), (1,-1), (3/2,1), (2,1), (0,3/2), (0,2),
    not the midpoints and corners of the square. *)
Theorem scenario_A_path :
  tour scenario_A
  = Some (Ok {| point := [0; 1]%Z;
                processed := [0; 1; 2; 3];
                contour_final :=
                  [[(-1 # 2)%Q; 0%Q]; [(-1)%Q; 0%Q];
                   [1%Q; (-1 # 2)%Q]; [1%Q; (-1)%Q];
                   [(3 # 2)%Q; 1%Q]; [2%Q; 1%Q]] |}) /\
  order_path scenario_A
  = Some (Ok [[(-1 # 2)%Q; 0%Q]; [(-1)%Q; 0%Q];
              [1%Q; (-1 # 2)%Q]; [1%Q; (-1)%Q];
              [(3 # 2)%Q; 1%Q]; [2%Q; 1%Q];
              [0%Q; (3 # 2)%Q]; [0%Q; 2%Q]]).
Proof.
  split; vm_compute; reflexivity.
Qed.

(** ** The closing segment *)

(** C3. Evaluation of the tracing code on the chain (0,0), (2,0), (4,0):
    the loop visits the positions 0, 1, 2 and ends at (4,0); two points
    are then appended without any test, but they are (6,0) and (8,0): the
    segment runs from the last point away from [contour[0]] = (0,0) and
    ends on the mirror image (8,0), not on [contour[0]]. *)
Theorem closing_segment_overshoots :
  tour [[0; 0]; [2; 0]; [4; 0]]%Z
  = Some (Ok {| point := [4; 0]%Z;
                processed := [0; 1; 2];
                contour_final :=
                  [[(-1)%Q; 0%Q]; [(-2)%Q; 0%Q]; [1%Q; 0%Q]; [0%Q; 0%Q]] |}) /\
  __draw_line [4; 0]%Z [0; 0]%Z divider = Ok [[6%Q; 0%Q]; [8%Q; 0%Q]] /\
  order_path [[0; 0]; [2; 0]; [4; 0]]%Z
  = Some (Ok [[(-1)%Q; 0%Q]; [(-2)%Q; 0%Q]; [1%Q; 0%Q]; [0%Q; 0%Q];
              [6%Q; 0%Q]; [8%Q; 0%Q]]) /\
  [8%Q; 0%Q] <> [0%Q; 0%Q].
Proof.
  repeat split; try (vm_compute; reflexivity). discriminate.
Qed.

(** ** Empty contours *)

(** C7. On an empty contour the slice ends normally: no exception is
    raised, no file is written, the path orderer is not run (whatever the
    number of passes allowed) and the only effect is the warning. *)
Theorem empty_contour_skipped (fuel : nat) (file_name : string) (w : world) :
  slice_body fuel file_name [] w
  = Some (Ok {| files := files w;
                log := log w ++ [(WARNING,
                  ("Empty contour for file " ++ file_name ++ ". Skipping.")%string)] |})
  /\ process_slice file_name [] w = slice_body fuel file_name [] w.
Proof.
  split; reflexivity.
Qed.

(** ** The gap bound *)





(** ** Clusters *)



(** C5. Evaluation of the tracing code on the chain (0,0), (2,0), (4,0)
    and the outlier (8,0), two clusters 4 apart: the loop visits the
    positions 0, 1, 2 of the first cluster only and stops at (4,0), but
    the closing segment is (6,0), (8,0): the path does not come back to
    [contour[0]] and ends on (8,0), the point of the other cluster. *)
Theorem chain_and_outlier_path :
  tour chain_and_outlier
  = Some (Ok {| point := [4; 0]%Z;
                processed := [0; 1; 2];
                contour_final :=
                  [[(-1)%Q; 0%Q]; [(-2)%Q; 0%Q]; [1%Q; 0%Q]; [0%Q; 0%Q]] |}) /\
  order_path chain_and_outlier
  = Some (Ok [[(-1)%Q; 0%Q]; [(-2)%Q; 0%Q]; [1%Q; 0%Q]; [0%Q; 0%Q];
              [6%Q; 0%Q]; [8%Q; 0%Q]]) /\
  nth_error chain_and_outlier 3 = Some [8; 0]%Z /\
  two_clusters 3 3 <> two_clusters 3 0 /\
  far [4; 0]%Z [8; 0]%Z = true.
Proof.
  repeat split; try (vm_compute; reflexivity). discriminate.
Qed.



(** ** The choice of the next point *)



(** ** The sentinel *)

(** C10. In every state of the loop position 0 is in [processed], so the
    search returns [False] or a position other than 0, and the test
    [False == nearest_pos] holds exactly when the search returned
    [False]. *)
Theorem sentinel_never_an_index (contour : list Point) (s : state) (r : pyval) :
  reachable contour s ->
  __find_nearest (point s) contour (processed s) = Ok r ->
  In 0 (processed s) /\ r <> PyInt 0 /\ (eq_False r = true <-> r = PyFalse).
Proof.
  intros Hreach Hr. pose proof (reachable_zero_visited _ _ Hreach) as H0.
  assert (Hnz : r <> PyInt 0).
  { intros ->. now apply (find_nearest_not_zero (point s) contour (processed s)). }
  repeat split; auto.
  - destruct r as [|[|k]]; intro He; try reflexivity; try discriminate He.
    now contradiction Hnz.
  - intros ->. reflexivity.
Qed.

Lemma sentinel_never_an_index_witness :
  In 0 [0] /\ PyInt 1 <> PyInt 0 /\ (eq_False (PyInt 1) = true <-> PyInt 1 = PyFalse).
Proof.
  apply (sentinel_never_an_index scenario_A (initial [0; 0]%Z) (PyInt 1)).
  - constructor. reflexivity.
  - reflexivity.
Defined.

(** ** Determinism *)

Lemma trace_contour_fuel_irrelevant (contour : list Point) :
  forall fuel1 fuel2 r1 r2,
    trace_contour fuel1 contour = Some r1 ->
    trace_contour fuel2 contour = Some r2 -> r1 = r2.
Proof.
  unfold trace_contour. intros fuel1 fuel2 r1 r2 H1 H2.
  destruct (getitem contour 0) as [p0|e]; [|congruence].
  destruct (while_loop fuel1 contour (initial p0)) as [o1|] eqn:E1;
    [|discriminate H1].
  destruct (while_loop fuel2 contour (initial p0)) as [o2|] eqn:E2;
    [|discriminate H2].
  assert (o1 = o2) by apply (while_loop_fuel_irrelevant contour _ _ _ _ _ E1 E2).
  subst o2. destruct o1; congruence.
Qed.

(** C8. Two runs of a slice on the same non-empty contour that both write
    a file, whatever the file names, the files and log entries already
    present and the number of passes allowed, compute one and the same
    path and write it unchanged. *)
Theorem path_deterministic (contour : list Point) (fuel1 fuel2 : nat)
    (file1 file2 : string) (w1 w2 w1' w2' : world) :
  contour <> [] ->
  slice_body fuel1 file1 contour w1 = Some (Ok w1') ->
  slice_body fuel2 file2 contour w2 = Some (Ok w2') ->
  exists path,
    trace_contour fuel1 contour = Some (Ok path) /\
    trace_contour fuel2 contour = Some (Ok path) /\
    files w1' = (file1, path) :: files w1 /\
    files w2' = (file2, path) :: files w2.
Proof.
  intros Hne H1 H2. unfold slice_body in H1, H2.
  destruct contour as [|p0 rest] eqn:Hc; [contradiction|].
  rewrite <- Hc in *.
  assert (Hlen : (0 =? length contour) = false) by now rewrite Hc.
  rewrite Hlen in H1, H2.
  destruct (trace_contour fuel1 contour) as [[path1|e1]|] eqn:E1;
    try discriminate H1.
  destruct (trace_contour fuel2 contour) as [[path2|e2]|] eqn:E2;
    try discriminate H2.
  pose proof (trace_contour_fuel_irrelevant contour _ _ _ _ E1 E2) as Heq.
  injection Heq as <-.
  exists path1. injection H1 as <-. injection H2 as <-. now repeat split.
Qed.

Lemma path_deterministic_witness :
  exists path,
    trace_contour 4 scenario_A = Some (Ok path) /\
    trace_contour 9 scenario_A = Some (Ok path) /\
    files (write_file "a.txt" path
             (logger DEBUG "Creating file a.txt..." {| files := []; log := [] |}))
    = ("a.txt"%string, path) :: [] /\
    files (write_file "b.txt" path
             (logger DEBUG "Creating file b.txt..."
                {| files := [("a.txt"%string, [])]; log := [] |}))
    = ("b.txt"%string, path) :: [("a.txt"%string, [])].
Proof.
  destruct (path_deterministic scenario_A 4 9 "a.txt" "b.txt"
              {| files := []; log := [] |}
              {| files := [("a.txt"%string, [])]; log := [] |}
              _ _ ltac:(discriminate) eq_refl eq_refl)
    as (path & H1 & H2 & H3 & H4).
  exists path. repeat split; auto.
Defined.

(** ** Coordinates beyond the second *)

Lemma truthy_firstn (p : Point) : truthy (firstn 2 p) = truthy p.
Proof. destruct p as [|x [|y rest]]; reflexivity. Qed.

Lemma getitem_map {A B : Type} (f : A -> B) (l : list A) (i : nat) :
  getitem (map f l) i = result_map f (getitem l i).
Proof.
  unfold getitem. rewrite nth_error_map.
  destruct (nth_error l i); reflexivity.
Qed.

Lemma scan_firstn (pt : Point) (processed : list nat) :
  forall rest pos nearest distance,
    find_nearest_scan (firstn 2 pt) processed pos (map (firstn 2) rest)
                      nearest distance
    = find_nearest_scan pt processed pos rest nearest distance.
Proof.
  induction rest as [|p rest IH]; intros pos nearest distance;
    cbn [find_nearest_scan map]; [reflexivity|].
  rewrite dist_firstn. destruct (py_in pos processed); [apply IH|].
  destruct (__dist pt p) as [dist|e]; [|reflexivity]. cbn [bind].
  destruct (surd_ltb dist distance); apply IH.
Qed.

Lemma find_nearest_firstn (pt : Point) (contour : list Point)
    (processed : list nat) :
  __find_nearest (firstn 2 pt) (map (firstn 2) contour) processed
  = __find_nearest pt contour processed.
Proof.
  unfold __find_nearest. now rewrite scan_firstn.
Qed.

Lemma loop_body_truncate (contour : list Point) (s : state) :
  loop_body (map (firstn 2) contour) (truncate s)
  = result_map truncate_flow (loop_body contour s).
Proof.
  unfold loop_body. cbn [truncate point processed contour_final].
  rewrite truthy_firstn, find_nearest_firstn.
  destruct (truthy (point s)); [|reflexivity].
  destruct (__find_nearest (point s) contour (processed s)) as [r|e];
    [|reflexivity].
  cbn [bind]. destruct (eq_False r); [reflexivity|].
  rewrite getitem_map. unfold Point in *.
  destruct (getitem contour (as_index r)) as [p|e]; [|reflexivity].
  cbn [result_map bind]. rewrite draw_line_firstn.
  destruct (__draw_line (point s) p divider); reflexivity.
Qed.

Lemma while_loop_truncate (contour : list Point) :
  forall fuel s,
    while_loop fuel (map (firstn 2) contour) (truncate s)
    = option_map (result_map truncate) (while_loop fuel contour s).
Proof.
  induction fuel as [|fuel IH]; intro s; simpl; [reflexivity|].
  rewrite loop_body_truncate.
  destruct (loop_body contour s) as [[sb | sc] | e]; simpl; auto.
Qed.

Lemma close_tour_truncate (contour : list Point) (s : state) :
  close_tour (map (firstn 2) contour) (truncate s) = close_tour contour s.
Proof.
  unfold close_tour. rewrite getitem_map. unfold Point in *.
  destruct (getitem contour 0) as [c0|e]; [|reflexivity].
  cbn [result_map bind truncate point contour_final].
  now rewrite draw_line_firstn.
Qed.

Lemma trace_contour_truncate (fuel : nat) (contour : list Point) :
  trace_contour fuel (map (firstn 2) contour) = trace_contour fuel contour.
Proof.
  unfold trace_contour. rewrite getitem_map. unfold Point in *.
  destruct (getitem contour 0) as [p0|e]; [|reflexivity].
  cbn [result_map].
  change (initial (firstn 2 p0)) with (truncate (initial p0)).
  rewrite while_loop_truncate.
  destruct (while_loop fuel contour (initial p0)) as [[s|e]|]; simpl;
    try reflexivity.
  now rewrite close_tour_truncate.
Qed.

(** Every point of a path has two coordinates. *)
Lemma path_shape (contour : list Point) (path : list vertex) :
  order_path contour = Some (Ok path) ->
  Forall (fun v => length v = 2) path.
Proof.
  unfold order_path, trace_contour.
  destruct (getitem contour 0) as [p0|e] eqn:Hp0; [|discriminate].
  destruct (while_loop (length contour) contour (initial p0))
    as [[s|e]|] eqn:Hloop; try discriminate.
  intro H. injection H as H. unfold close_tour in H. rewrite Hp0 in H.
  cbn [bind] in H. apply bind_Ok in H as (line & Hline & H).
  injection H as <-.
  assert (Hreach : reachable contour s).
  { apply (while_loop_reachable contour (length contour) (initial p0));
      [now constructor | exact Hloop]. }
  apply Forall_app. split.
  - now apply (reachable_contour_final contour s).
  - now apply draw_line_shape in Hline.
Qed.

(** C9. The distance and the interpolation of two points are those of
    their first two coordinates, the path of a contour is the path of the
    contour with every point cut down to its first two coordinates, and
    every point of a path has exactly two coordinates. *)
Theorem path_ignores_further_coordinates (contour : list Point) :
  (forall p q,
      __dist (firstn 2 p) (firstn 2 q) = __dist p q /\
      __draw_line (firstn 2 p) (firstn 2 q) divider = __draw_line p q divider) /\
  order_path (map (firstn 2) contour) = order_path contour /\
  (forall path, order_path contour = Some (Ok path) ->
                Forall (fun v => length v = 2) path).
Proof.
  split; [|split].
  - intros p q. split; [apply dist_firstn | apply draw_line_firstn].
  - unfold order_path. rewrite length_map. apply trace_contour_truncate.
  - apply path_shape.
Qed.

(** A contour of four points with three coordinates each. *)
Lemma path_ignores_further_coordinates_witness :
  order_path [[0; 0; 7]; [1; 0; 7]; [10; 10; 7]; [11; 10; 7]]%Z
  = Some (Ok [[(-1 # 2)%Q; 0%Q]; [(-1)%Q; 0%Q]; [(3 # 2)%Q; 0%Q]; [2%Q; 0%Q]])
  /\ Forall (fun v => length v = 2)
       [[(-1 # 2)%Q; 0%Q]; [(-1)%Q; 0%Q]; [(3 # 2)%Q; 0%Q]; [2%Q; 0%Q]].
Proof.
  split; [reflexivity|].
  apply (proj2 (proj2 (path_ignores_further_coordinates
                         [[0; 0; 7]; [1; 0; 7]; [10; 10; 7]; [11; 10; 7]]%Z))).
  reflexivity.
Defined.

(** * Further properties of the helpers *)

(** ** [__dist] *)

(** The distance does not depend on the order of its arguments (short
    points raise in either order), its square is not negative, and it is
    zero exactly when the two points agree on both coordinates. *)
Theorem dist_symmetric_and_zero (p q : Point) :
  __dist p q = __dist q p /\
  (forall d, __dist p q = Ok d -> (0 <= radicand d)%Z) /\
  (__dist p q = Ok (math_sqrt 0%Z) <->
   2 <= length p /\ 2 <= length q /\ firstn 2 p = firstn 2 q).
Proof.
  destruct p as [|x1 [|y1 r1]]; destruct q as [|x2 [|y2 r2]];
    try (split; [reflexivity|]; split; [intros d H; discriminate H|];
         split; [intro H; discriminate H | simpl; intros (H1 & H2 & _); lia]).
  rewrite !dist_cons. unfold math_sqrt. split; [|split].
  - do 2 f_equal. ring.
  - intros d H. injection H as <-. cbn [radicand]. nia.
  - cbn [firstn length]. split.
    + intro H. injection H as H.
      assert (x1 = x2 /\ y1 = y2) as [-> ->] by nia.
      repeat split; lia.
    + intros (_ & _ & H). injection H as -> ->. do 2 f_equal. ring.
Qed.

(** ** [__draw_line] on any pair of points *)

Lemma coord_same (a : Z) (d : positive) (i : nat) :
  coord a (a - a)%Z d i = inject_Z a.
Proof.
  unfold coord. rewrite Z.sub_diag.
  transitivity (Qred (inject_Z a)); [|apply Qred_inject_Z].
  apply Qred_complete. unfold Qeq, inject_Z, Qplus, Qmult. cbn [Qnum Qden].
  rewrite ?Pos.mul_1_r, ?Pos.mul_1_l. ring.
Qed.

Lemma coord_first (a b : Z) : coord a (a - b)%Z 2 1 = Qred ((3 * a - b) # 2).
Proof.
  unfold coord. apply Qred_complete.
  unfold Qeq, inject_Z, Qplus, Qmult. cbn [Qnum Qden].
  change (Z.of_nat 1) with 1%Z. lia.
Qed.

(** With the two subdivisions of the script, [__draw_line] returns for
    every pair of points with two coordinates or more the two points
    [p1 + (p1 - p2) / 2] and [2 * p1 - p2]: it steps from the first point
    away from the second and ends on the mirror image of the second
    through the first. *)
Theorem draw_line_divider_two (x1 y1 x2 y2 : Z) (r1 r2 : list Z) :
  __draw_line (x1 :: y1 :: r1) (x2 :: y2 :: r2) divider
  = Ok [[Qred ((3 * x1 - x2) # 2); Qred ((3 * y1 - y2) # 2)];
        [inject_Z (2 * x1 - x2); inject_Z (2 * y1 - y2)]].
Proof.
  rewrite draw_line_cons. unfold divider.
  change (seq 1 (Pos.to_nat 2)) with [1; 2]. cbn [map].
  now rewrite !coord_first, !coord_last.
Qed.

Lemma draw_line_same_point (x y : Z) (r1 r2 : list Z) (d : positive) :
  __draw_line (x :: y :: r1) (x :: y :: r2) d
  = Ok (repeat [inject_Z x; inject_Z y] (Pos.to_nat d)).
Proof.
  rewrite draw_line_cons. f_equal.
  generalize 1. induction (Pos.to_nat d) as [|n IH]; intro start;
    [reflexivity|].
  cbn [seq map repeat]. now rewrite !coord_same, IH.
Qed.

(** Between two points that agree on both coordinates every point
    returned is that common point, without rounding. *)
Theorem draw_line_degenerate (x y : Z) (r1 r2 : list Z) (d : positive) :
  __draw_line (x :: y :: r1) (x :: y :: r2) d
  = Ok (repeat [inject_Z x; inject_Z y] (Pos.to_nat d)).
Proof.
  apply draw_line_same_point.
Qed.

(** ** [__find_nearest] *)

(** A scan that returns has computed the distance to every position
    outside [processed]. *)
Lemma scan_reads (pt : Point) (processed : list nat) :
  forall rest pos nearest distance r,
    find_nearest_scan pt processed pos rest nearest distance = Ok r ->
    forall j q, nth_error rest j = Some q -> unvisited processed (pos + j) ->
                exists d, __dist pt q = Ok d.
Proof.
  induction rest as [|p rest IH]; intros pos nearest distance r Hscan j q Hq Hu.
  - destruct j; discriminate Hq.
  - cbn [find_nearest_scan] in Hscan. destruct j as [|j].
    + injection Hq as ->. rewrite Nat.add_0_r in Hu.
      unfold unvisited in Hu. rewrite Hu in Hscan.
      destruct (__dist pt q) as [d|e]; [now exists d | discriminate Hscan].
    + simpl in Hq. replace (pos + S j) with (S pos + j) in Hu by lia.
      destruct (py_in pos processed).
      * now apply (IH (S pos) nearest distance r Hscan j q).
      * destruct (__dist pt p) as [dist|e]; [|discriminate Hscan].
        cbn [bind] in Hscan. destruct (surd_ltb dist distance).
        -- now apply (IH (S pos) (PyInt pos) dist r Hscan j q).
        -- now apply (IH (S pos) nearest distance r Hscan j q).
Qed.

Lemma find_nearest_reads (pt : Point) (contour : list Point)
    (processed : list nat) (r : pyval) :
  __find_nearest pt contour processed = Ok r ->
  forall j q, nth_error contour j = Some q -> unvisited processed j ->
              exists d, __dist pt q = Ok d.
Proof.
  unfold __find_nearest. intros Hr j q Hq Hu.
  apply bind_Ok in Hr as (r0 & Hscan & _).
  now apply (scan_reads pt processed contour 0 PyFalse (of_int 10000000%Z)
               r0 Hscan j q).
Qed.



(** * Further properties of the tour *)

Lemma dist_Ok_lengths (p q : Point) (d : surd) :
  __dist p q = Ok d -> 2 <= length p /\ 2 <= length q.
Proof.
  destruct p as [|x1 [|y1 r1]]; destruct q as [|x2 [|y2 r2]];
    try discriminate. simpl. lia.
Qed.

Lemma draw_line_Ok_lengths (p q : Point) (n : positive) (line : list vertex) :
  __draw_line p q n = Ok line -> 2 <= length p /\ 2 <= length q.
Proof.
  destruct p as [|x1 [|y1 r1]]; destruct q as [|x2 [|y2 r2]];
    try discriminate. simpl. lia.
Qed.

(** A path comes from a tour that ended, followed by the closing
    statement. *)
Lemma order_path_inv (contour : list Point) (path : list vertex) :
  order_path contour = Some (Ok path) ->
  exists s, tour contour = Some (Ok s) /\ close_tour contour s = Ok path.
Proof.
  unfold order_path, trace_contour, tour.
  destruct (getitem contour 0) as [p0|e]; [|discriminate].
  destruct (while_loop (length contour) contour (initial p0)) as [[s|e]|];
    try discriminate.
  intro H. injection H as H. now exists s.
Qed.

(** The tour starts at position 0, never visits a position twice, visits
    positions of the contour only, and its current point is the contour
    point of the position visited last. *)
Theorem tour_visits_once (contour : list Point) (s : state) :
  tour contour = Some (Ok s) ->
  (exists rest, processed s = 0 :: rest) /\
  NoDup (processed s) /\
  Forall (fun i => i < length contour) (processed s) /\
  nth_error contour (last (processed s) 0) = Some (point s).
Proof.
  intro H. apply tour_reachable in H as [Hreach _].
  now apply reachable_processed.
Qed.

Lemma tour_visits_once_witness :
  (exists rest, [0; 1] = 0 :: rest) /\
  NoDup [0; 1] /\
  Forall (fun i => i < length scenario_C) [0; 1] /\
  nth_error scenario_C (last [0; 1] 0) = Some [1; 0]%Z.
Proof.
  apply (tour_visits_once scenario_C
           {| point := [1; 0]%Z; processed := [0; 1];
              contour_final := [[(-1 # 2)%Q; 0%Q]; [(-1)%Q; 0%Q]] |}).
  reflexivity.
Defined.

(** A path holds two points per position visited: at least two points,
    at most twice as many as the contour has, and an even number. *)
Theorem path_length (contour : list Point) (path : list vertex) :
  order_path contour = Some (Ok path) ->
  exists s,
    tour contour = Some (Ok s) /\
    length path = 2 * length (processed s) /\
    2 <= length path <= 2 * length contour.
Proof.
  intro H. apply order_path_inv in H as (s & Htour & Hclose).
  exists s. split; [exact Htour|].
  pose proof (tour_reachable _ _ Htour) as [Hreach _].
  pose proof (reachable_contour_final _ _ Hreach) as [_ Hlen].
  pose proof (processed_bounded _ _ Hreach) as Hb.
  pose proof (reachable_processed _ _ Hreach) as ([rest Hrest] & _).
  unfold close_tour in Hclose.
  apply bind_Ok in Hclose as (c0 & _ & Hclose).
  apply bind_Ok in Hclose as (line & Hline & Hclose).
  injection Hclose as <-. apply draw_line_shape in Hline as [Hl _].
  rewrite length_app, Hl. unfold divider. change (Pos.to_nat 2) with 2.
  rewrite Hrest in *. simpl in *. lia.
Qed.

Lemma path_length_witness :
  exists s,
    tour scenario_C = Some (Ok s) /\
    length [[(-1 # 2)%Q; 0%Q]; [(-1)%Q; 0%Q]; [(3 # 2)%Q; 0%Q]; [2%Q; 0%Q]]
    = 2 * length (processed s) /\
    2 <= length [[(-1 # 2)%Q; 0%Q]; [(-1)%Q; 0%Q]; [(3 # 2)%Q; 0%Q]; [2%Q; 0%Q]]
      <= 2 * length scenario_C.
Proof.
  apply (path_length scenario_C). reflexivity.
Defined.

Lemma trace_ends (contour : list Point) :
  exists r, order_path contour = Some r.
Proof.
  unfold order_path, trace_contour.
  destruct (getitem contour 0) as [p0|e] eqn:Hp0; [|eexists; reflexivity].
  assert (Hinit : reachable contour (initial p0)) by now constructor.
  destruct (while_loop_terminates contour (length contour) (initial p0) Hinit)
    as [r Hr].
  { apply getitem_Ok in Hp0. destruct contour; [discriminate Hp0|].
    simpl. lia. }
  rewrite Hr. destruct r; eexists; reflexivity.
Qed.

(** The [while] loop of [main] always ends: on every contour, within as
    many passes as the contour has points, the tracing code returns a
    path or raises. *)
Theorem order_path_terminates (contour : list Point) :
  exists r, order_path contour = Some r.
Proof.
  apply trace_ends.
Qed.

Lemma trace_succeeds_iff (contour : list Point) :
  contour <> [] ->
  (well_formed contour <-> exists path, order_path contour = Some (Ok path)) /\
  ((exists p, In p contour /\ length p < 2) ->
   order_path contour = Some (Raise IndexError)).
Proof.
  intro Hne.
  assert (Hiff : well_formed contour <->
                 exists path, order_path contour = Some (Ok path)).
  { split.
    - intro Hwf.
      destruct (tour_total contour Hwf Hne)
        as (p0 & s & Hp0 & Htour & Hreach & _).
      destruct (draw_line_total (point s) p0 divider) as [line Hline].
      { now apply reachable_point with contour. }
      { apply nth_error_In in Hp0. unfold well_formed in Hwf.
        rewrite Forall_forall in Hwf. now apply Hwf. }
      exists (contour_final s ++ line).
      rewrite (order_path_tour contour s Htour). unfold close_tour.
      rewrite (proj2 (getitem_Ok _ _ _) Hp0). cbn [bind].
      now rewrite Hline.
    - intros [path Hpath].
      pose proof Hpath as Hinv. apply order_path_inv in Hinv as (s & Htour & Hclose).
      unfold close_tour in Hclose.
      apply bind_Ok in Hclose as (c0 & Hc0 & Hclose).
      apply bind_Ok in Hclose as (line & Hline & _).
      apply draw_line_Ok_lengths in Hline as [_ Hc0len].
      apply getitem_Ok in Hc0.
      unfold tour in Htour. rewrite (proj2 (getitem_Ok _ _ _) Hc0) in Htour.
      destruct contour as [|p0 rest] eqn:Hc; [contradiction|].
      rewrite <- Hc in *.
      assert (p0 = c0) by (rewrite Hc in Hc0; simpl in Hc0; congruence).
      subst p0.
      replace (length contour) with (S (length rest)) in Htour
        by (rewrite Hc; reflexivity).
      cbn [while_loop] in Htour.
      destruct (loop_body contour (initial c0)) as [f|e] eqn:Hbody;
        [|discriminate Htour].
      unfold loop_body in Hbody. cbn [initial point processed] in Hbody.
      destruct c0 as [|x c0']; [simpl in Hc0len; lia|].
      cbn [truthy] in Hbody.
      destruct (__find_nearest (x :: c0') contour [0]) as [r|e] eqn:Hfind;
        [|discriminate Hbody].
      unfold well_formed. apply Forall_forall. intros q Hq.
      apply In_nth_error in Hq as [j Hj].
      destruct j as [|j].
      + unfold Point in *. rewrite Hc0 in Hj. injection Hj as <-. exact Hc0len.
      + destruct (find_nearest_reads _ _ _ _ Hfind (S j) q Hj eq_refl)
          as [d Hd].
        now apply dist_Ok_lengths in Hd. }
  split; [exact Hiff|].
  intros (p & Hin & Hshort).
  destruct (trace_ends contour) as [[path|e] Hr].
  - exfalso. assert (Hwf : well_formed contour) by (apply Hiff; now exists path).
    unfold well_formed in Hwf. rewrite Forall_forall in Hwf.
    specialize (Hwf p Hin). lia.
  - now destruct e.
Qed.

(** On a non-empty contour the tracing code returns a path exactly when
    every point has at least two coordinates; as soon as one point has
    fewer (a slice of a two-dimensional image), it raises [IndexError]. *)
Theorem order_path_succeeds_iff (contour : list Point) :
  contour <> [] ->
  (well_formed contour <-> exists path, order_path contour = Some (Ok path)) /\
  ((exists p, In p contour /\ length p < 2) ->
   order_path contour = Some (Raise IndexError)).
Proof.
  apply trace_succeeds_iff.
Qed.

Lemma order_path_succeeds_iff_witness :
  (well_formed [[3]; [4]]%Z <->
   exists path, order_path [[3]; [4]]%Z = Some (Ok path)) /\
  ((exists p, In p [[3]; [4]]%Z /\ length p < 2) ->
   order_path [[3]; [4]]%Z = Some (Raise IndexError)).
Proof.
  apply (order_path_succeeds_iff [[3]; [4]]%Z). discriminate.
Defined.

(** A contour of a single point gives the path of two copies of that
    point: the closing segment from the point to itself. *)
Theorem single_point_path (x y : Z) (rest : list Z) :
  order_path [x :: y :: rest]
  = Some (Ok [[inject_Z x; inject_Z y]; [inject_Z x; inject_Z y]]).
Proof.
  unfold order_path, trace_contour.
  cbn [getitem nth_error length while_loop].
  assert (Hbody : loop_body [x :: y :: rest] (initial (x :: y :: rest))
                  = Ok (Break (initial (x :: y :: rest)))) by reflexivity.
  rewrite Hbody. unfold close_tour.
  cbn [getitem nth_error bind initial point contour_final].
  rewrite draw_line_same_point. reflexivity.
Qed.

(** * The contour positions of a slice *)

Lemma traverse_seq {B : Type} (f : nat -> result B) :
  forall n start bs,
    traverse f (seq start n) = Ok bs ->
    length bs = n /\
    forall i b, nth_error bs i = Some b -> f (start + i) = Ok b.
Proof.
  induction n as [|n IH]; intros start bs H; cbn [seq traverse] in H.
  - injection H as <-. split; [reflexivity|].
    intros [|i] b Hb; discriminate Hb.
  - apply bind_Ok in H as (b0 & Hb0 & H).
    apply bind_Ok in H as (bs' & Hbs' & H). injection H as <-.
    apply IH in Hbs' as [Hlen Hnth]. split; [simpl; now rewrite Hlen|].
    intros [|i] b Hb.
    + injection Hb as <-. now rewrite Nat.add_0_r.
    + replace (start + S i) with (S start + i) by lia. now apply Hnth.
Qed.

Lemma traverse_seq_total {B : Type} (f : nat -> result B) :
  forall n start,
    (forall i, i < n -> exists b, f (start + i) = Ok b) ->
    exists bs, traverse f (seq start n) = Ok bs.
Proof.
  induction n as [|n IH]; intros start Hf; cbn [seq traverse].
  - eexists. reflexivity.
  - destruct (Hf 0) as [b0 Hb0]; [lia|]. rewrite Nat.add_0_r in Hb0.
    destruct (IH (S start)) as [bs Hbs].
    { intros i Hi. destruct (Hf (S i)) as [b Hb]; [lia|].
      exists b. now replace (S start + i) with (start + S i) by lia. }
    rewrite Hb0, Hbs. eexists. reflexivity.
Qed.

Lemma contour_positions_spec (n : nat) (contour_tmp : list (list Z)) :
  contour_tmp <> [] -> rectangular n contour_tmp ->
  exists contour,
    contour_positions contour_tmp = Ok contour /\
    length contour = n /\
    Forall (fun p => length p = length contour_tmp) contour /\
    forall i j p,
      nth_error contour i = Some p -> j < length contour_tmp ->
      exists axis, nth_error contour_tmp j = Some axis /\
                   nth_error p j = nth_error axis i.
Proof.
  intros Hne Hrect. unfold contour_positions.
  destruct contour_tmp as [|first others] eqn:Hc; [contradiction|].
  rewrite <- Hc in *.
  assert (H0 : nth_error contour_tmp 0 = Some first) by now rewrite Hc.
  rewrite (proj2 (getitem_Ok _ _ _) H0). cbn [bind].
  assert (Hfirst : length first = n).
  { unfold rectangular in Hrect. rewrite Forall_forall in Hrect.
    apply Hrect. rewrite Hc. now left. }
  rewrite Hfirst.
  assert (Haxis : forall j, j < length contour_tmp ->
            exists axis, nth_error contour_tmp j = Some axis /\ length axis = n).
  { intros j Hj. destruct (nth_error contour_tmp j) as [axis|] eqn:Hn.
    - exists axis. split; [reflexivity|].
      unfold rectangular in Hrect. rewrite Forall_forall in Hrect.
      apply Hrect. now apply nth_error_In with j.
    - apply nth_error_None in Hn. lia. }
  destruct (traverse_seq_total
              (fun i => traverse
                 (fun j => axis <- getitem contour_tmp j ;; getitem axis i)
                 (seq 0 (length contour_tmp))) n 0) as [contour Hcontour].
  { intros i Hi. apply traverse_seq_total. intros j Hj.
    destruct (Haxis j Hj) as (axis & Haj & Hlen). cbn [Nat.add].
    rewrite (proj2 (getitem_Ok _ _ _) Haj). cbn [bind].
    destruct (nth_error axis i) as [v|] eqn:Hv.
    - exists v. now apply getitem_Ok.
    - apply nth_error_None in Hv. lia. }
  exists contour. split; [exact Hcontour|].
  apply traverse_seq in Hcontour as [Hlen Hnth]. split; [exact Hlen|]. split.
  - apply Forall_forall. intros p Hp. apply In_nth_error in Hp as [i Hi].
    apply Hnth in Hi. now apply traverse_seq in Hi as [Hl _].
  - intros i j p Hp Hj. destruct (Haxis j Hj) as (axis & Haj & Hal).
    exists axis. split; [exact Haj|].
    apply Hnth in Hp. cbn [Nat.add] in Hp.
    apply traverse_seq in Hp as [Hpl Hpn].
    destruct (nth_error p j) as [v|] eqn:Hv.
    + apply Hpn in Hv. cbn [Nat.add] in Hv.
      rewrite (proj2 (getitem_Ok _ _ _) Haj) in Hv. cbn [bind] in Hv.
      apply getitem_Ok in Hv. now rewrite Hv.
    + apply nth_error_None in Hv. lia.
Qed.

(** When [nonzero()] returned at least one axis and every axis holds [n]
    indices, the contour has [n] points, each point has one coordinate
    per axis, and coordinate [j] of point [i] is index [i] of axis [j]. *)
Theorem contour_positions_transposes (n : nat) (contour_tmp : list (list Z)) :
  contour_tmp <> [] -> rectangular n contour_tmp ->
  exists contour,
    contour_positions contour_tmp = Ok contour /\
    length contour = n /\
    Forall (fun p => length p = length contour_tmp) contour /\
    forall i j p,
      nth_error contour i = Some p -> j < length contour_tmp ->
      exists axis, nth_error contour_tmp j = Some axis /\
                   nth_error p j = nth_error axis i.
Proof.
  apply contour_positions_spec.
Qed.

Lemma contour_positions_transposes_witness :
  exists contour,
    contour_positions [[1; 2; 3]; [4; 5; 6]]%Z = Ok contour /\
    length contour = 3 /\
    Forall (fun p => length p = length [[1; 2; 3]; [4; 5; 6]]%Z) contour /\
    forall i j p,
      nth_error contour i = Some p -> j < length [[1; 2; 3]; [4; 5; 6]]%Z ->
      exists axis, nth_error [[1; 2; 3]; [4; 5; 6]]%Z j = Some axis /\
                   nth_error p j = nth_error axis i.
Proof.
  apply (contour_positions_transposes 3 [[1; 2; 3]; [4; 5; 6]]%Z).
  - discriminate.
  - repeat constructor.
Defined.

(** The contour is built whenever no axis is shorter than the first one
    (what a longer axis holds beyond is ignored); an empty tuple of axes,
    or an axis shorter than the first, raises [IndexError]. *)
Theorem contour_positions_succeeds_iff (contour_tmp : list (list Z)) :
  (exists contour, contour_positions contour_tmp = Ok contour) <->
  exists first,
    nth_error contour_tmp 0 = Some first /\
    Forall (fun axis => length first <= length axis) contour_tmp.
Proof.
  unfold contour_positions. split.
  - intros [contour H]. apply bind_Ok in H as (first & Hf & H).
    apply getitem_Ok in Hf. exists first. split; [exact Hf|].
    apply Forall_forall. intros axis Hin.
    destruct (Nat.le_gt_cases (length first) (length axis)) as [Hle | Hlt];
      [exact Hle | exfalso].
    apply In_nth_error in Hin as [j Hj].
    assert (Hjl : j < length contour_tmp) by (apply nth_error_Some; congruence).
    assert (Hpos : length axis < length first) by exact Hlt.
    apply traverse_seq in H as [Hlen Hnth].
    destruct (nth_error contour (length axis)) as [p|] eqn:Hp.
    + apply Hnth in Hp. cbn [Nat.add] in Hp.
      apply traverse_seq in Hp as [Hpl Hpn].
      destruct (nth_error p j) as [v|] eqn:Hv.
      * apply Hpn in Hv. cbn [Nat.add] in Hv.
        rewrite (proj2 (getitem_Ok _ _ _) Hj) in Hv. cbn [bind] in Hv.
        apply getitem_Ok in Hv.
        assert (length axis < length axis)
          by (apply nth_error_Some; congruence). lia.
      * apply nth_error_None in Hv. lia.
    + apply nth_error_None in Hp. lia.
  - intros (first & Hf & Hall). rewrite (proj2 (getitem_Ok _ _ _) Hf).
    cbn [bind]. apply traverse_seq_total. intros i Hi.
    apply traverse_seq_total. intros j Hj. cbn [Nat.add].
    destruct (nth_error contour_tmp j) as [axis|] eqn:Haj.
    + rewrite (proj2 (getitem_Ok _ _ _) Haj). cbn [bind].
      rewrite Forall_forall in Hall.
      specialize (Hall axis (nth_error_In _ _ Haj)).
      destruct (nth_error axis i) as [v|] eqn:Hv.
      * exists v. now apply getitem_Ok.
      * apply nth_error_None in Hv. lia.
    + apply nth_error_None in Haj. lia.
Qed.

(** * The largest object *)

(** What the first loop leaves in [biggest] and [biggest_size]: the size
    never shrinks, it bounds the size of every label looked at, and
    [biggest] either is untouched or is the first label of that size. *)
Lemma find_biggest_spec (image_labeled : list nat) :
  forall ls b0 s0 b s,
    find_biggest image_labeled ls b0 s0 = (b, s) ->
    s0 <= s /\
    (forall i, In i ls -> label_size image_labeled i <= s) /\
    ((b = b0 /\ s = s0) \/
     (exists k, nth_error ls k = Some b /\ s = label_size image_labeled b /\
                s0 < s /\
                forall j i, j < k -> nth_error ls j = Some i ->
                            label_size image_labeled i < s)).
Proof.
  induction ls as [|l ls IH]; intros b0 s0 b s H; cbn [find_biggest] in H.
  - injection H as <- <-. split; [lia|]. split; [intros i []|]. now left.
  - destruct (s0 <? label_size image_labeled l) eqn:Hcmp.
    + apply Nat.ltb_lt in Hcmp.
      apply IH in H as (Hle & Hmax & Hsel). split; [lia|]. split.
      * intros i [<- | Hi]; [exact Hle | now apply Hmax].
      * right. destruct Hsel as [[-> ->] | (k & Hk & Hs & Hlt & Hfirst)].
        -- exists 0. repeat split; auto. intros j i Hj. lia.
        -- exists (S k). repeat split; auto; try lia.
           intros [|j] i Hj Hi.
           ++ injection Hi as <-. lia.
           ++ apply (Hfirst j i); [lia | exact Hi].
    + apply Nat.ltb_ge in Hcmp.
      apply IH in H as (Hle & Hmax & Hsel). split; [exact Hle|]. split.
      * intros i [<- | Hi]; [lia | now apply Hmax].
      * destruct Hsel as [Hsame | (k & Hk & Hs & Hlt & Hfirst)];
          [now left | right].
        exists (S k). repeat split; auto.
        intros [|j] i Hj Hi.
        -- injection Hi as <-. lia.
        -- apply (Hfirst j i); [lia | exact Hi].
Qed.

Lemma nth_error_seq_Some (start len j i : nat) :
  nth_error (seq start len) j = Some i -> i = start + j /\ j < len.
Proof.
  intro H.
  assert (Hj : j < len).
  { rewrite <- (length_seq len start). apply nth_error_Some. congruence. }
  split; [|exact Hj].
  apply (nth_error_nth _ _ 0) in H. now rewrite seq_nth in H.
Qed.

(** The label the first loop selects has the largest size among the labels
    1 to [labels], and every smaller label is strictly smaller in size:
    of several largest objects the one with the lowest label is kept.  It
    is 0 only when none of these labels occurs in the slice. *)
Theorem find_biggest_largest_lowest (image_labeled : list nat)
    (labels b s : nat) :
  find_biggest image_labeled (seq 1 labels) 0 0 = (b, s) ->
  (forall i, 1 <= i <= labels -> label_size image_labeled i <= s) /\
  ((b = 0 /\ s = 0) \/
   (1 <= b <= labels /\ s = label_size image_labeled b /\ 0 < s /\
    forall i, 1 <= i < b ->
              label_size image_labeled i < label_size image_labeled b)).
Proof.
  intro H. apply find_biggest_spec in H as (_ & Hmax & Hsel). split.
  - intros i Hi. apply Hmax. apply in_seq. lia.
  - destruct Hsel as [Hsame | (k & Hk & Hs & Hlt & Hfirst)]; [now left|].
    right. apply nth_error_seq_Some in Hk as [Hb Hkl].
    repeat split; try lia; try exact Hs.
    intros i Hi. rewrite <- Hs. apply (Hfirst (i - 1) i); [lia|].
    assert (Hn : nth_error (seq 1 labels) (i - 1) <> None)
      by (apply nth_error_Some; rewrite length_seq; lia).
    destruct (nth_error (seq 1 labels) (i - 1)) as [i'|] eqn:Hi';
      [|contradiction].
    apply nth_error_seq_Some in Hi' as [-> _]. f_equal. lia.
Qed.

Lemma find_biggest_largest_lowest_witness :
  (forall i, 1 <= i <= 3 -> label_size [0; 1; 1; 2; 2; 0; 3] i <= 2) /\
  ((1 = 0 /\ 2 = 0) \/
   (1 <= 1 <= 3 /\ 2 = label_size [0; 1; 1; 2; 2; 0; 3] 1 /\ 0 < 2 /\
    forall i, 1 <= i < 1 ->
              label_size [0; 1; 1; 2; 2; 0; 3] i
              < label_size [0; 1; 1; 2; 2; 0; 3] 1)).
Proof.
  apply (find_biggest_largest_lowest [0; 1; 1; 2; 2; 0; 3] 3 1 2).
  reflexivity.
Defined.

(** After the second loop a cell holds 0 if its label is one of the labels
    gone through other than [biggest], and its label otherwise. *)
Lemma remove_others_cells (biggest : nat) :
  forall ls image_labeled,
    remove_others biggest ls image_labeled
    = map (fun v => if existsb (fun i => (v =? i) && negb (i =? biggest)) ls
                    then 0 else v) image_labeled.
Proof.
  induction ls as [|l ls IH]; intro image_labeled; cbn [remove_others existsb].
  - symmetry. apply map_id.
  - destruct (l =? biggest) eqn:Hl.
    + rewrite IH. apply map_ext. intro v.
      now rewrite andb_false_r.
    + rewrite IH. unfold clear_label. rewrite map_map. apply map_ext.
      intro v. rewrite andb_true_r. destruct (v =? l) eqn:Hv; cbn [orb].
      * now destruct (existsb _ ls).
      * reflexivity.
Qed.

(** When the slice holds more than one object and its cells are labelled
    0 to [labels], the slice kept is true exactly on the cells of the
    selected label; with one object or none the slice is left as it is. *)
Theorem largest_object_keeps_biggest (image_slice : list bool)
    (image_labeled : list nat) (labels : nat) :
  Forall (fun v => v <= labels) image_labeled ->
  largest_object image_slice image_labeled labels
  = if 1 <? labels
    then map (fun v => negb (v =? 0)
                       && (v =? fst (find_biggest image_labeled (seq 1 labels) 0 0)))
             image_labeled
    else image_slice.
Proof.
  intro Hall. unfold largest_object. destruct (1 <? labels); [|reflexivity].
  set (b := fst (find_biggest image_labeled (seq 1 labels) 0 0)).
  unfold astype_bool. rewrite remove_others_cells, map_map.
  apply map_ext_in. intros v Hv. rewrite Forall_forall in Hall.
  specialize (Hall v Hv).
  destruct (existsb (fun i => (v =? i) && negb (i =? b)) (seq 1 labels)) eqn:He.
  - apply existsb_exists in He as (i & Hi & Hvi).
    apply andb_true_iff in Hvi as [Hvi Hib].
    apply Nat.eqb_eq in Hvi. subst i. apply negb_true_iff in Hib.
    rewrite Hib, andb_false_r. reflexivity.
  - destruct (v =? 0) eqn:Hv0; [reflexivity|]. cbn [negb andb].
    apply Nat.eqb_neq in Hv0. symmetry. apply Nat.eqb_eq.
    destruct (Nat.eq_dec v b) as [Heq | Hne]; [exact Heq | exfalso].
    assert (Hex : existsb (fun i => (v =? i) && negb (i =? b)) (seq 1 labels)
                  = true).
    { apply existsb_exists. exists v. split; [apply in_seq; lia|].
      rewrite Nat.eqb_refl. cbn [andb]. apply negb_true_iff.
      now apply Nat.eqb_neq. }
    congruence.
Qed.

Lemma largest_object_keeps_biggest_witness :
  largest_object [false; true; true; true; true; false; true]
                 [0; 1; 1; 2; 2; 0; 3] 3
  = if 1 <? 3
    then map (fun v => negb (v =? 0)
                       && (v =? fst (find_biggest [0; 1; 1; 2; 2; 0; 3]
                                                  (seq 1 3) 0 0)))
             [0; 1; 1; 2; 2; 0; 3]
    else [false; true; true; true; true; false; true].
Proof.
  apply (largest_object_keeps_biggest
           [false; true; true; true; true; false; true]
           [0; 1; 1; 2; 2; 0; 3] 3).
  repeat constructor.
Defined.

(** * File names *)

Lemma string_length_append (a b : string) :
  String.length (a ++ b) = String.length a + String.length b.
Proof.
  induction a as [|c a IH]; simpl; [reflexivity | now rewrite IH].
Qed.

Lemma append_inv_head (p a b : string) :
  (p ++ a)%string = (p ++ b)%string -> a = b.
Proof.
  induction p as [|c p IH]; simpl; intro H; [exact H|].
  injection H as H. now apply IH.
Qed.

Lemma append_inv_tail (s : string) :
  forall a b, (a ++ s)%string = (b ++ s)%string -> a = b.
Proof.
  induction a as [|c a IH]; intros [|c' b] H; simpl in H.
  - reflexivity.
  - exfalso. apply (f_equal String.length) in H. simpl in H.
    rewrite string_length_append in H. lia.
  - exfalso. apply (f_equal String.length) in H. simpl in H.
    rewrite string_length_append in H. lia.
  - injection H as -> H. f_equal. now apply IH.
Qed.

(** Zeros in front of a digit string do not change the number read. *)
Lemma zeros_value (k : nat) (s : string) (d : Decimal.uint) :
  NilEmpty.uint_of_string s = Some d ->
  exists d', NilEmpty.uint_of_string (zeros k ++ s) = Some d' /\
             N.of_uint d' = N.of_uint d.
Proof.
  intro H. induction k as [|k (d' & Hd' & Hv)]; simpl.
  - now exists d.
  - rewrite Hd'. exists (Decimal.D0 d'). split; [reflexivity | exact Hv].
Qed.

Lemma zfill_value (width : nat) (n : N) :
  exists d, NilEmpty.uint_of_string (zfill width (digits n)) = Some d /\
            N.of_uint d = n.
Proof.
  destruct (zeros_value (width - String.length (digits n)) (digits n)
              (N.to_uint n)) as (d & Hd & Hv).
  { apply NilEmpty.usu. }
  exists d. split; [exact Hd|]. rewrite Hv. apply DecimalN.Unsigned.of_to.
Qed.

Lemma zfill_inj (w1 w2 : nat) (n1 n2 : N) :
  zfill w1 (digits n1) = zfill w2 (digits n2) -> n1 = n2.
Proof.
  intro H. destruct (zfill_value w1 n1) as (d1 & Hd1 & Hv1).
  destruct (zfill_value w2 n2) as (d2 & Hd2 & Hv2).
  rewrite H in Hd1. congruence.
Qed.

Lemma zfill_length (width : nat) (s : string) :
  width <= String.length (zfill width s).
Proof.
  unfold zfill. rewrite string_length_append.
  assert (String.length (zeros (width - String.length s))
          = width - String.length s).
  { induction (width - String.length s) as [|k IH]; simpl; congruence. }
  lia.
Qed.

Lemma format_04d_injective_aux (z1 z2 : Z) :
  format_04d z1 = format_04d z2 -> z1 = z2.
Proof.
  - unfold format_04d.
    destruct (z1 <? 0)%Z eqn:H1; destruct (z2 <? 0)%Z eqn:H2; intro H.
    + apply Z.ltb_lt in H1, H2. injection H as H. apply zfill_inj in H. lia.
    + exfalso. destruct (zfill_value 4 (Z.to_N z2)) as (d & Hd & _).
      rewrite <- H in Hd. simpl in Hd.
      destruct (NilEmpty.uint_of_string (zfill 3 (digits (Z.abs_N z1))));
        discriminate Hd.
    + exfalso. destruct (zfill_value 4 (Z.to_N z1)) as (d & Hd & _).
      rewrite H in Hd. simpl in Hd.
      destruct (NilEmpty.uint_of_string (zfill 3 (digits (Z.abs_N z2))));
        discriminate Hd.
    + apply Z.ltb_ge in H1, H2. apply zfill_inj in H. lia.
Qed.

(** The format [{:04d}] writes distinct numbers differently and never
    writes fewer than four characters. *)
Theorem format_04d_injective (z1 z2 : Z) :
  (format_04d z1 = format_04d z2 <-> z1 = z2) /\
  4 <= String.length (format_04d z1).
Proof.
  split.
  - split; [apply format_04d_injective_aux | now intros ->].
  - unfold format_04d. destruct (z1 <? 0)%Z.
    + pose proof (zfill_length 3 (digits (Z.abs_N z1))). simpl. lia.
    + apply zfill_length.
Qed.

Lemma file_name_inj (a : Args.t) (i j : nat) :
  file_name_of a i = file_name_of a j -> i = j.
Proof.
  unfold file_name_of. intro H.
  do 4 apply append_inv_head in H.
  apply append_inv_tail in H.
  apply format_04d_injective_aux in H. lia.
Qed.

(** Two slices of one run never share a file name. *)
Theorem file_names_distinct (a : Args.t) (i j : nat) :
  file_name_of a i = file_name_of a j <-> i = j.
Proof.
  split; [apply file_name_inj | now intros ->].
Qed.

(** * The loop over the slices *)

Lemma read_file_write (fn f : string) (path : list vertex) (w : world) :
  read_file fn (write_file f path w)
  = if (fn =? f)%string then Some path else read_file fn w.
Proof.
  unfold read_file, write_file. cbn [files find fst].
  now destruct (fn =? f)%string.
Qed.

Lemma path_exists_write (fn f : string) (path : list vertex) (w : world) :
  path_exists fn (write_file f path w) = ((fn =? f)%string || path_exists fn w).
Proof. reflexivity. Qed.

(** What a slice that ends normally did to the files: nothing, because the
    file was there and [-f] was not given or because the contour is empty;
    or one writing of its own file with the path of its contour. *)
Lemma slice_step_inv (a : Args.t) (positions : nat -> list (list Z))
    (i : nat) (w w1 : world) :
  slice_step a positions i w = Some (Ok w1) ->
  (files w1 = files w /\
   ((Args.force a = false /\ path_exists (file_name_of a i) w = true) \/
    contour_positions (positions i) = Ok [])) \/
  (exists contour path,
      contour_positions (positions i) = Ok contour /\ contour <> [] /\
      order_path contour = Some (Ok path) /\
      (Args.force a = true \/ path_exists (file_name_of a i) w = false) /\
      w1 = write_file (file_name_of a i) path
             (logger DEBUG ("Creating file " ++ file_name_of a i ++ "...")%string w)).
Proof.
  unfold slice_step.
  destruct (negb (Args.force a) && path_exists (file_name_of a i) w) eqn:Hskip.
  - intro H. injection H as <-. left. split; [reflexivity|]. left.
    apply andb_true_iff in Hskip as [Hf He].
    apply negb_true_iff in Hf. now split.
  - destruct (contour_positions (positions i)) as [contour|e]; [|discriminate].
    unfold process_slice, slice_body.
    destruct contour as [|p0 rest] eqn:Hc.
    + intro H. injection H as <-. left. split; [reflexivity | now right].
    + rewrite <- Hc. replace (0 =? length contour) with false by now rewrite Hc.
      change (trace_contour (length contour) contour) with (order_path contour).
      destruct (order_path contour) as [[path|e]|] eqn:Hpath; try discriminate.
      intro H. injection H as <-. right. exists contour, path.
      repeat split; auto.
      * rewrite Hc. discriminate.
      * apply andb_false_iff in Hskip as [Hf | He]; [left | now right].
        now apply negb_false_iff in Hf.
Qed.


(** A slice leaves the files of the other slices alone. *)
Lemma slice_step_other_files (a : Args.t) (positions : nat -> list (list Z))
    (i : nat) (w w1 : world) (fn : string) :
  slice_step a positions i w = Some (Ok w1) -> fn <> file_name_of a i ->
  read_file fn w1 = read_file fn w /\ path_exists fn w1 = path_exists fn w.
Proof.
  intros H Hfn.
  apply slice_step_inv in H
    as [[Hfiles _] | (contour & path & _ & _ & _ & _ & ->)].
  - unfold read_file, path_exists. now rewrite Hfiles.
  - rewrite read_file_write, path_exists_write.
    apply String.eqb_neq in Hfn. now rewrite Hfn.
Qed.

(** Without [-f] a slice leaves every file that exists as it is. *)
Lemma slice_step_keeps_existing (a : Args.t) (positions : nat -> list (list Z))
    (i : nat) (w w1 : world) (fn : string) :
  Args.force a = false -> slice_step a positions i w = Some (Ok w1) ->
  path_exists fn w = true ->
  read_file fn w1 = read_file fn w /\ path_exists fn w1 = true.
Proof.
  intros Hforce H Hex.
  apply slice_step_inv in H
    as [[Hfiles _] | (contour & path & _ & _ & _ & Hnew & ->)].
  - unfold read_file, path_exists in *. now rewrite Hfiles.
  - destruct Hnew as [Hf | Hf]; [congruence|].
    rewrite read_file_write, path_exists_write.
    destruct (fn =? file_name_of a i)%string eqn:He.
    + apply String.eqb_eq in He. congruence.
    + now split.
Qed.

(** Without [-f] no file that exists when the loop starts is overwritten:
    whether the loop finishes or is cut short by an exception, each such
    file still exists and holds what it held. *)
Theorem existing_files_kept (a : Args.t) (positions : nat -> list (list Z))
    (n : nat) (w : world) (fn : string) :
  Args.force a = false -> path_exists fn w = true ->
  read_file fn (final_world (main_loop a positions n w)) = read_file fn w /\
  path_exists fn (final_world (main_loop a positions n w)) = true.
Proof.
  intros Hforce. unfold main_loop. generalize (seq 0 n). intro idxs.
  revert w. induction idxs as [|i idxs IH]; intros w Hex; cbn [for_slices].
  - now split.
  - destruct (slice_step a positions i w) as [[w1|e]|] eqn:Hstep;
      cbn [final_world]; try now split.
    destruct (slice_step_keeps_existing a positions i w w1 fn Hforce Hstep Hex)
      as [Hread Hex1].
    destruct (IH w1 Hex1) as [Hread' Hex']. split; [congruence | exact Hex'].
Qed.

(** A run over two slices: the file of the first is already there and is
    kept, the second is written. *)
Lemma existing_files_kept_witness :
  read_file "out/P01-0080-icontour-auto.txt"
    (final_world
       (main_loop {| Args.target := "out"; Args.id := "01"; Args.ctype := "i";
                     Args.offset := 80; Args.force := false |}
                  (fun _ => [[0; 1]; [0; 0]]%Z) 2
                  {| files := [("out/P01-0080-icontour-auto.txt"%string, [])];
                     log := [] |}))
  = read_file "out/P01-0080-icontour-auto.txt"
      {| files := [("out/P01-0080-icontour-auto.txt"%string, [])]; log := [] |}
  /\
  path_exists "out/P01-0080-icontour-auto.txt"
    (final_world
       (main_loop {| Args.target := "out"; Args.id := "01"; Args.ctype := "i";
                     Args.offset := 80; Args.force := false |}
                  (fun _ => [[0; 1]; [0; 0]]%Z) 2
                  {| files := [("out/P01-0080-icontour-auto.txt"%string, [])];
                     log := [] |}))
  = true.
Proof.
  apply (existing_files_kept
           {| Args.target := "out"; Args.id := "01"; Args.ctype := "i";
              Args.offset := 80; Args.force := false |}
           (fun _ => [[0; 1]; [0; 0]]%Z) 2
           {| files := [("out/P01-0080-icontour-auto.txt"%string, [])];
              log := [] |}
           "out/P01-0080-icontour-auto.txt"); reflexivity.
Defined.

(** The tracing code of a slice never runs out of passes. *)
Lemma slice_step_ends (a : Args.t) (positions : nat -> list (list Z))
    (i : nat) (w : world) :
  exists r, slice_step a positions i w = Some r.
Proof.
  unfold slice_step.
  destruct (negb (Args.force a) && path_exists (file_name_of a i) w);
    [eexists; reflexivity|].
  destruct (contour_positions (positions i)) as [contour|e];
    [|eexists; reflexivity].
  unfold process_slice, slice_body.
  destruct (0 =? length contour); [eexists; reflexivity|].
  change (trace_contour (length contour) contour) with (order_path contour).
  destruct (trace_ends contour) as [[path|e] Hr]; rewrite Hr;
    eexists; reflexivity.
Qed.

Lemma for_slices_crash (a : Args.t) (positions : nat -> list (list Z))
    (e : exc) (w' : world) :
  forall n start w,
    for_slices a positions (seq start n) w = Crashed e w' ->
    exists k,
      k < n /\
      for_slices a positions (seq start k) w = Finished w' /\
      slice_step a positions (start + k) w' = Some (Raise e).
Proof.
  induction n as [|n IH]; intros start w H; cbn [seq for_slices] in H.
  - discriminate H.
  - destruct (slice_step a positions start w) as [[w1|e1]|] eqn:Hstep.
    + apply IH in H as (k & Hk & Hfin & Hraise).
      exists (S k). split; [lia|]. split.
      * cbn [seq for_slices]. now rewrite Hstep.
      * now replace (start + S k) with (S start + k) by lia.
    + injection H as -> ->. exists 0. split; [lia|]. split; [reflexivity|].
      now rewrite Nat.add_0_r.
    + discriminate H.
Qed.

(** What a loop that finished did to the files: those of other slices are
    untouched, and each slice of the range whose contour was built has
    either left its file alone or written the path of its contour. *)
Lemma for_slices_finished_files (a : Args.t) (positions : nat -> list (list Z)) :
  forall n start w w',
    for_slices a positions (seq start n) w = Finished w' ->
    (forall fn,
        (forall i, start <= i < start + n -> fn <> file_name_of a i) ->
        read_file fn w' = read_file fn w /\
        path_exists fn w' = path_exists fn w) /\
    forall i contour,
      start <= i < start + n ->
      contour_positions (positions i) = Ok contour ->
      if (negb (Args.force a) && path_exists (file_name_of a i) w)
         || (0 =? length contour)
      then read_file (file_name_of a i) w' = read_file (file_name_of a i) w
      else exists path,
             order_path contour = Some (Ok path) /\
             read_file (file_name_of a i) w' = Some path.
Proof.
  induction n as [|n IH]; intros start w w' H; cbn [seq for_slices] in H.
  - injection H as <-. split; [now split|]. intros i contour Hi. lia.
  - destruct (slice_step a positions start w) as [[w1|e1]|] eqn:Hstep;
      try discriminate H.
    apply IH in H as (Hother & Hslices). split.
    + intros fn Hfn.
      destruct (slice_step_other_files a positions start w w1 fn Hstep)
        as [Hr1 He1]; [apply Hfn; lia|].
      destruct (Hother fn) as [Hr2 He2]; [intros i Hi; apply Hfn; lia|].
      split; congruence.
    + intros i contour Hi Hc.
      destruct (Nat.eq_dec i start) as [-> | Hne].
      * destruct (Hother (file_name_of a start)) as [Hr2 _].
        { intros j Hj Heq. apply file_name_inj in Heq. lia. }
        rewrite Hr2.
        apply slice_step_inv in Hstep
          as [[Hfiles [[Hf He] | Hnil]]
             | (contour' & path & Hc' & Hne' & Hpath & Hnew & ->)].
        -- rewrite Hf, He. cbn [negb andb orb].
           unfold read_file. now rewrite Hfiles.
        -- assert (contour = []) by congruence. subst contour.
           cbn [length Nat.eqb]. rewrite orb_true_r.
           unfold read_file. now rewrite Hfiles.
        -- assert (contour' = contour) by congruence. subst contour'.
           replace (negb (Args.force a) && path_exists (file_name_of a start) w)
             with false
             by (destruct Hnew as [-> | ->];
                 [reflexivity | now rewrite andb_false_r]).
           replace (0 =? length contour) with false
             by (destruct contour; [contradiction | reflexivity]).
           cbn [orb]. exists path. split; [exact Hpath|].
           rewrite read_file_write. now rewrite String.eqb_refl.
      * destruct (slice_step_other_files a positions start w w1
                    (file_name_of a i) Hstep) as [Hr1 He1].
        { intro Heq. apply file_name_inj in Heq. lia. }
        specialize (Hslices i contour ltac:(lia) Hc).
        rewrite He1, Hr1 in Hslices. exact Hslices.
Qed.

(** When an exception cuts the loop short, it does so at a slice [k], and
    the output of the slices before [k] is in place: the file of each of
    them holds the path of its contour, unless the contour is empty or,
    without [-f], the file existed before the run, in which case the file
    is as it was. *)
Theorem crash_keeps_earlier_slices (a : Args.t)
    (positions : nat -> list (list Z)) (n : nat) (w w' : world) (e : exc) :
  main_loop a positions n w = Crashed e w' ->
  exists k,
    k < n /\
    slice_step a positions k w' = Some (Raise e) /\
    forall i contour,
      i < k -> contour_positions (positions i) = Ok contour ->
      if (negb (Args.force a) && path_exists (file_name_of a i) w)
         || (0 =? length contour)
      then read_file (file_name_of a i) w' = read_file (file_name_of a i) w
      else exists path,
             order_path contour = Some (Ok path) /\
             read_file (file_name_of a i) w' = Some path.
Proof.
  intro H. apply for_slices_crash in H as (k & Hk & Hfin & Hraise).
  exists k. split; [exact Hk|]. split; [exact Hraise|].
  apply for_slices_finished_files in Hfin as [_ Hslices].
  intros i contour Hi. apply Hslices. lia.
Qed.

(** A run whose second slice comes from a one-axis image: the file of the
    first slice holds its path when the crash occurs. *)
Lemma crash_keeps_earlier_slices_witness :
  exists k,
    k < 3 /\
    slice_step {| Args.target := "out"; Args.id := "01"; Args.ctype := "o";
                  Args.offset := 0; Args.force := true |}
               (fun i => if i =? 1 then [[5; 6]]%Z else [[0; 1]; [0; 0]]%Z)
               k
               {| files := [("out/P01-0000-ocontour-auto.txt"%string,
                             [[(-1 # 2)%Q; 0%Q]; [(-1)%Q; 0%Q];
                              [(3 # 2)%Q; 0%Q]; [2%Q; 0%Q]])];
                  log := [(DEBUG,
                           "Creating file out/P01-0000-ocontour-auto.txt..."%string)] |}
    = Some (Raise IndexError) /\
    forall i contour,
      i < k ->
      contour_positions
        ((fun i => if i =? 1 then [[5; 6]]%Z else [[0; 1]; [0; 0]]%Z) i)
      = Ok contour ->
      if (negb (Args.force
                  {| Args.target := "out"; Args.id := "01"; Args.ctype := "o";
                     Args.offset := 0; Args.force := true |})
          && path_exists
               (file_name_of
                  {| Args.target := "out"; Args.id := "01"; Args.ctype := "o";
                     Args.offset := 0; Args.force := true |} i)
               {| files := []; log := [] |})
         || (0 =? length contour)
      then read_file
             (file_name_of
                {| Args.target := "out"; Args.id := "01"; Args.ctype := "o";
                   Args.offset := 0; Args.force := true |} i)
             {| files := [("out/P01-0000-ocontour-auto.txt"%string,
                           [[(-1 # 2)%Q; 0%Q]; [(-1)%Q; 0%Q];
                            [(3 # 2)%Q; 0%Q]; [2%Q; 0%Q]])];
                log := [(DEBUG,
                         "Creating file out/P01-0000-ocontour-auto.txt..."%string)] |}
           = read_file
               (file_name_of
                  {| Args.target := "out"; Args.id := "01"; Args.ctype := "o";
                     Args.offset := 0; Args.force := true |} i)
               {| files := []; log := [] |}
      else exists path,
             order_path contour = Some (Ok path) /\
             read_file
               (file_name_of
                  {| Args.target := "out"; Args.id := "01"; Args.ctype := "o";
                     Args.offset := 0; Args.force := true |} i)
               {| files := [("out/P01-0000-ocontour-auto.txt"%string,
                             [[(-1 # 2)%Q; 0%Q]; [(-1)%Q; 0%Q];
                              [(3 # 2)%Q; 0%Q]; [2%Q; 0%Q]])];
                  log := [(DEBUG,
                           "Creating file out/P01-0000-ocontour-auto.txt..."%string)] |}
             = Some path.
Proof.
  apply (crash_keeps_earlier_slices
           {| Args.target := "out"; Args.id := "01"; Args.ctype := "o";
              Args.offset := 0; Args.force := true |}
           (fun i => if i =? 1 then [[5; 6]]%Z else [[0; 1]; [0; 0]]%Z)
           3 {| files := []; log := [] |}).
  reflexivity.
Defined.




(** A slice whose positions have a single axis (the input image has two
    dimensions) and at least one index raises [IndexError] as soon as it
    is traced, that is unless its file exists and [-f] was not given. *)
Theorem one_axis_slice_raises (a : Args.t) (positions : nat -> list (list Z))
    (i : nat) (w : world) (axis : list Z) :
  positions i = [axis] -> axis <> [] ->
  Args.force a = true \/ path_exists (file_name_of a i) w = false ->
  slice_step a positions i w = Some (Raise IndexError).
Proof.
  intros Hpos Hne Hnew. unfold slice_step.
  replace (negb (Args.force a) && path_exists (file_name_of a i) w) with false
    by (destruct Hnew as [-> | ->]; [reflexivity | now rewrite andb_false_r]).
  destruct (contour_positions_spec (length axis) (positions i))
    as (contour & Hc & Hlen & Hall & _).
  { rewrite Hpos. discriminate. }
  { rewrite Hpos. repeat constructor. }
  rewrite Hc. unfold process_slice, slice_body.
  destruct contour as [|p0 rest] eqn:Hcon.
  { destruct axis; [contradiction | discriminate Hlen]. }
  rewrite <- Hcon in *.
  replace (0 =? length contour) with false by now rewrite Hcon.
  change (trace_contour (length contour) contour) with (order_path contour).
  destruct (trace_succeeds_iff contour) as [_ Hraise];
    [rewrite Hcon; discriminate|].
  rewrite Hraise; [reflexivity|].
  exists p0. split; [rewrite Hcon; now left|].
  rewrite Forall_forall in Hall. rewrite (Hall p0), Hpos; [simpl; lia|].
  rewrite Hcon. now left.
Qed.

Lemma one_axis_slice_raises_witness :
  slice_step {| Args.target := "out"; Args.id := "01"; Args.ctype := "i";
                Args.offset := 0; Args.force := true |}
             (fun _ => [[5; 6]]%Z) 0 {| files := []; log := [] |}
  = Some (Raise IndexError).
Proof.
  apply (one_axis_slice_raises
           {| Args.target := "out"; Args.id := "01"; Args.ctype := "i";
              Args.offset := 0; Args.force := true |}
           (fun _ => [[5; 6]]%Z) 0 {| files := []; log := [] |} [5; 6]%Z).
  - reflexivity.
  - discriminate.
  - now left.
Defined.

(** The distance between a point and the same point with a third
    coordinate. *)
Lemma dist_symmetric_and_zero_witness :
  __dist [1; 2]%Z [1; 2; 9]%Z = __dist [1; 2; 9]%Z [1; 2]%Z /\
  (forall d, __dist [1; 2]%Z [1; 2; 9]%Z = Ok d -> (0 <= radicand d)%Z) /\
  (__dist [1; 2]%Z [1; 2; 9]%Z = Ok (math_sqrt 0%Z) <->
   2 <= length [1; 2]%Z /\ 2 <= length [1; 2; 9]%Z /\
   firstn 2 [1; 2]%Z = firstn 2 [1; 2; 9]%Z).
Proof.
  apply (dist_symmetric_and_zero [1; 2]%Z [1; 2; 9]%Z).
Defined.
